(** * FontCache: font resolution and the bounded face cache

    A shallow embedding of [src/FontCache.cc] (OpenSCAD): the [FontInfo]
    ordering, the query normalisation of [find_face], the charmap
    negotiation of [find_face_fontconfig] and [try_charmap], the diagnostic
    [is_windows_symbol_font], and the cache operations [check_cleanup] and
    [get_font]; further the constructor, [clear], [list_fonts] and the
    decoding of the fontconfig version number.

    Conventions:
    - [std::string] is [string]; its [operator<] is [String.ltb]
      (lexicographic on unsigned bytes, a proper prefix is smaller).
    - C integers that the code only compares are [Z].
    - fontconfig, FreeType and the process environment are external; their
      entry points are the fields of a record [Backend] and get no body.
    - a computation that would dereference a null or past-the-end pointer
      yields [None]. *)

From Stdlib Require Import ZArith Lia Bool Ascii String List Permutation Sorted.
Import ListNotations.

Local Open Scope string_scope.
Local Open Scope list_scope.
Local Open Scope Z_scope.

(* ================================================================== *)
(** ** Strings: [boost::algorithm::trim] and [boost::split]            *)
(* ================================================================== *)

Module Str.

(** [std::isspace] in the classic locale: space and the controls
    [\t \n \v \f \r] (codes 9 to 13). *)
Definition is_space (c : ascii) : bool :=
  let n := nat_of_ascii c in
  Nat.eqb n 32 || (Nat.leb 9 n && Nat.leb n 13).

Fixpoint trim_left (s : string) : string :=
  match s with
  | EmptyString => EmptyString
  | String c s' => if is_space c then trim_left s' else s
  end.

Fixpoint trim_right (s : string) : string :=
  match s with
  | EmptyString => EmptyString
  | String c s' =>
      match trim_right s' with
      | EmptyString => if is_space c then EmptyString else String c EmptyString
      | r => String c r
      end
  end.

(** [boost::algorithm::trim]: drop the trailing, then the leading blanks. *)
Definition trim (s : string) : string := trim_left (trim_right s).

Definition empty (s : string) : bool :=
  match s with EmptyString => true | _ => false end.

(** [boost::split(out, s, is_any_of(sep))] for a one-character separator
    set, without token compression: [n] separators give [n+1] tokens. *)
Fixpoint split (sep : ascii) (s : string) : list string :=
  match s with
  | EmptyString => [EmptyString]
  | String c s' =>
      if Ascii.eqb c sep then EmptyString :: split sep s'
      else match split sep s' with
           | [] => [String c EmptyString]
           | tok :: toks => String c tok :: toks
           end
  end.

End Str.

(* ================================================================== *)
(** ** [FontInfo]                                                      *)
(* ================================================================== *)

Record FontInfo := mkFontInfo {
  family : string;
  style : string;
  file : string;
  hash : Z
}.

(** [FontInfo::operator<], lines 85-94. *)
Definition FontInfo_lt (this rhs : FontInfo) : bool :=
  if (family this <? family rhs)%string then true
  else if (style this <? style rhs)%string then true
  else (file this <? file rhs)%string.

(* ================================================================== *)
(** ** Diagnostics                                                     *)
(* ================================================================== *)

Inductive message_group := NONE | Font_Warning.

Inductive fmt_arg :=
| arg_str (s : string)
| arg_int (z : Z).

(** What the code hands to the diagnostic channel: [LOG] with its message
    group (no group given means [NONE]), and the debug tracing of [PRINTD]
    and [PRINTDB].  A message keeps its format string and its arguments. *)
Inductive message :=
| LOG (g : message_group) (fmt : string) (args : list fmt_arg)
| PRINTD (fmt : string) (args : list fmt_arg).

(* ================================================================== *)
(** ** FreeType and fontconfig data                                    *)
(* ================================================================== *)

(** The fields of [FT_CharMapRec] the code reads (both [FT_UShort]). *)
Record FT_CharMapRec := mkCharMap {
  platform_id : Z;
  encoding_id : Z
}.

(** The fields of [FT_FaceRec] the code reads.  [num_charmaps] is the length
    of [charmaps]; [charmap] is the active charmap, null when none is;
    [ft_rest] stands for everything else in the record (glyph data), which
    only the engine looks at. *)
Record FT_FaceRec := mkFace {
  family_name : string;
  style_name : string;
  charmaps : list FT_CharMapRec;
  charmap : option FT_CharMapRec;
  ft_rest : Z
}.

Definition num_charmaps (face : FT_FaceRec) : Z := Z.of_nat (length (charmaps face)).

Definition set_active (face : FT_FaceRec) (cm : FT_CharMapRec) : FT_FaceRec :=
  {| family_name := family_name face;
     style_name := style_name face;
     charmaps := charmaps face;
     charmap := Some cm;
     ft_rest := ft_rest face |}.

(** Identifiers of [FT_TRUETYPE_IDS_H] and [FT_FREETYPE_H]. *)
Definition TT_PLATFORM_APPLE_UNICODE : Z := 0.
Definition TT_PLATFORM_MACINTOSH : Z := 1.
Definition TT_PLATFORM_ISO : Z := 2.
Definition TT_PLATFORM_MICROSOFT : Z := 3.
Definition TT_MS_ID_SYMBOL_CS : Z := 0.
Definition TT_MS_ID_UNICODE_CS : Z := 1.
Definition TT_ISO_ID_7BIT_ASCII : Z := 0.
Definition TT_ISO_ID_10646 : Z := 1.
Definition TT_ISO_ID_8859_1 : Z := 2.
Definition TT_MAC_ID_ROMAN : Z := 0.
Definition ft_encoding_unicode : Z := 0x756E6963.

Inductive FcValue := FcTypeBool (b : bool).
Inductive FcMatchKind := FcMatchPattern | FcMatchFont | FcMatchScan.

Definition FC_FILE := "file"%string.
Definition FC_INDEX := "index"%string.
Definition FC_FONT_FEATURES := "fontfeatures"%string.
Definition FC_OUTLINE := "outline"%string.
Definition FC_SCALABLE := "scalable"%string.

(** The external collaborators.  A null pointer argument or result is
    [None]; an out-parameter filled on success is the [Some] of the result
    (for the [FcPatternGet*] calls [Some] is [FcResultMatch]; for the
    FreeType calls [Some] or [true] is error code 0).
    - [ft_select_charmap face enc] is the charmap [FT_Select_Charmap] would
      make active, [ft_set_charmap face cm] whether [FT_Set_Charmap]
      accepts [cm];
    - [FT_Get_First_Char] gives the character code and the glyph index
      written to [*agindex];
    - the last block is what the constructor asks of the process
      environment. *)
Record Backend := mkBackend {
  FcConfig : Type;
  FcPattern : Type;
  FT_Library : Type;
  FcInitLoadConfig : option FcConfig;
  FcConfigAppFontAddDir : option FcConfig -> string -> bool;
  FcNameParse : string -> option FcPattern;
  FcPatternAdd : FcPattern -> string -> FcValue -> bool -> FcPattern;
  FcConfigSubstitute : option FcConfig -> FcPattern -> FcMatchKind -> FcPattern;
  FcDefaultSubstitute : FcPattern -> FcPattern;
  FcFontMatch : option FcConfig -> FcPattern -> option FcPattern;
  FcPatternGetString : option FcPattern -> string -> Z -> option string;
  FcPatternGetInteger : option FcPattern -> string -> Z -> option Z;
  FT_Init_FreeType : option FT_Library;
  FT_New_Face : option FT_Library -> string -> Z -> option FT_FaceRec;
  ft_select_charmap : FT_FaceRec -> Z -> option FT_CharMapRec;
  ft_set_charmap : FT_FaceRec -> FT_CharMapRec -> bool;
  FT_Get_First_Char : FT_FaceRec -> Z * Z;
  resourcePath_fonts : string;
  getenv : string -> option string;
  pathSeparatorChar : ascii;
  fs_exists : string -> bool;
  fs_is_directory : string -> bool;
  fs_absolute : string -> string;
  fs_canonical : string -> string
}.

(* ================================================================== *)
(** ** [FontFace] and the cache container                              *)
(* ================================================================== *)

Record FontFace := mkFontFace {
  face_ : FT_FaceRec;
  features_ : list string
}.

(** [FontFacePtr] is a shared pointer to a constant [FontFace]; [None] is
    the null pointer. *)
Definition FontFacePtr := option FontFace.

Definition time_t := Z.

Definition cache_entry_t : Type := FontFacePtr * time_t.

(** Modelled from the spec: the container type [cache_t] is declared in
    FontCache.h, which is not among the sources; the spec describes a
    key -> (Face Handle, last-access-time) map with at most one entry per
    key and speaks of its iteration order without fixing it.  Here it is
    the list of its entries in iteration order; a key that is new takes
    its place in key order, as in [std::map].  No property below depends
    on where a new key is placed. *)
Definition cache_t : Type := list (string * cache_entry_t).

Module Cache.

(** [cache.find(key)]: the first entry under [key], [None] for [end()]. *)
Fixpoint find (key : string) (c : cache_t) : option cache_entry_t :=
  match c with
  | [] => None
  | (k, e) :: c' => if (k =? key)%string then Some e else find key c'
  end.

Fixpoint replace (key : string) (e : cache_entry_t) (c : cache_t) : cache_t :=
  match c with
  | [] => []
  | (k, e') :: c' =>
      if (k =? key)%string then (k, e) :: c' else (k, e') :: replace key e c'
  end.

Fixpoint insert_new (key : string) (e : cache_entry_t) (c : cache_t) : cache_t :=
  match c with
  | [] => [(key, e)]
  | (k, e') :: c' =>
      if (key <? k)%string then (key, e) :: c else (k, e') :: insert_new key e c'
  end.

(** [cache[key] = e]: overwrite the entry of [key] where it stands, or
    create it. *)
Definition assign (key : string) (e : cache_entry_t) (c : cache_t) : cache_t :=
  match find key c with
  | Some _ => replace key e c
  | None => insert_new key e c
  end.

(** [cache.erase(pos)] for an iterator [pos] that points at an entry. *)
Definition erase (pos : nat) (c : cache_t) : cache_t :=
  firstn pos c ++ skipn (S pos) c.

Definition keys (c : cache_t) : list string := map fst c.

Definition stamp (x : string * cache_entry_t) : time_t := snd (snd x).

End Cache.

(* ================================================================== *)
(** ** Effects of the resolver                                         *)
(* ================================================================== *)

(** The resolver works on one [FT_FaceRec] through a pointer and writes
    diagnostics: a state monad over the record and the log, with failure
    for undefined behaviour. *)
Record world := mkWorld {
  w_face : FT_FaceRec;
  w_log : list message
}.

Definition M (A : Type) : Type := world -> option (A * world).

Definition ret {A : Type} (a : A) : M A := fun w => Some (a, w).

Definition bind {A B : Type} (m : M A) (k : A -> M B) : M B :=
  fun w => match m w with
           | None => None
           | Some (a, w') => k a w'
           end.

Notation "x <- m ;; k" := (bind m (fun x => k))
  (at level 61, m at next level, right associativity).
Notation "m ;;; k" := (bind m (fun _ => k))
  (at level 61, right associativity).

Definition get_face : M FT_FaceRec := fun w => Some (w_face w, w).

Definition put_face (face : FT_FaceRec) : M unit :=
  fun w => Some (tt, {| w_face := face; w_log := w_log w |}).

Definition emit (m : message) : M unit :=
  fun w => Some (tt, {| w_face := w_face w; w_log := w_log w ++ [m] |}).

Definition lift_option {A : Type} (o : option A) : M A :=
  fun w => match o with
           | None => None
           | Some a => Some (a, w)
           end.

(* ================================================================== *)
(** ** The resolver and the cache                                      *)
(* ================================================================== *)

Definition DEFAULT_FONT : string := "Liberation Sans:style=Regular".

(** [a "x", b "y"]-shaped format strings: the text [a], [x] between double
    quotes, the text [b], [y] between double quotes. *)
Definition quoted (a x b y : string) : string :=
  let dq := String (ascii_of_nat 34) EmptyString in
  String.concat EmptyString [a; dq; x; dq; b; dq; y; dq].

Section FontCache.

Variable B : Backend.

(** Modelled from the spec: [MAX_NR_OF_CACHE_ENTRIES] is declared in
    FontCache.h, which is not among the sources; the spec calls it a fixed
    maximum entry count, a configured constant.  It is a parameter. *)
Variable MAX_NR_OF_CACHE_ENTRIES : nat.

Record FontCache := mkFontCache {
  init_ok : bool;
  config : option (FcConfig B);
  library : option (FT_Library B);
  cache : cache_t
}.

Definition set_cache (this : FontCache) (c : cache_t) : FontCache :=
  {| init_ok := init_ok this;
     config := config this;
     library := library this;
     cache := c |}.

(** [FT_Select_Charmap(face, encoding) == 0], with its effect on the face. *)
Definition FT_Select_Charmap (encoding : Z) : M bool :=
  face <- get_face ;;
  match ft_select_charmap B face encoding with
  | Some cm => put_face (set_active face cm) ;;; ret true
  | None => ret false
  end.

(** [FT_Set_Charmap(face, charmap) == 0], with its effect on the face. *)
Definition FT_Set_Charmap (cm : FT_CharMapRec) : M bool :=
  face <- get_face ;;
  if ft_set_charmap B face cm
  then put_face (set_active face cm) ;;; ret true
  else ret false.

(** [FontCache::is_windows_symbol_font], lines 482-499.  [face->charmap]
    is dereferenced without a null test. *)
Definition is_windows_symbol_font (face : FT_FaceRec) : option bool :=
  match charmap face with
  | None => None
  | Some active =>
      if negb (platform_id active =? TT_PLATFORM_MICROSOFT) then Some false
      else if negb (encoding_id active =? TT_MS_ID_SYMBOL_CS) then Some false
      else
        let '(charcode, gindex) := FT_Get_First_Char B face in
        if (gindex =? 0) || (charcode <? 0xf000) then Some false
        else Some true
  end.

(** The test of line 469. *)
Definition charmap_matches (cm : FT_CharMapRec) (platform encoding : Z) : bool :=
  (platform_id cm =? platform) && ((encoding <? 0) || (encoding_id cm =? encoding)).

(** The loop of [try_charmap] over the entries from [idx] on. *)
Fixpoint try_charmap_from (cms : list FT_CharMapRec) (platform encoding : Z) : M bool :=
  match cms with
  | [] => ret false
  | cm :: rest =>
      if charmap_matches cm platform encoding then
        ok <- FT_Set_Charmap cm ;;
        if ok then
          emit (PRINTD "Selected charmap: platform_id = %d, encoding_id = %d"
                       [arg_int (platform_id cm); arg_int (encoding_id cm)]) ;;;
          face <- get_face ;;
          symbol <- lift_option (is_windows_symbol_font face) ;;
          (if symbol
           then emit (PRINTD "Detected windows symbol font with character codes in the Private Use Area of Unicode at 0xf000: %s/%s"
                             [arg_str (family_name face); arg_str (style_name face)])
           else ret tt) ;;;
          ret true
        else try_charmap_from rest platform encoding
      else try_charmap_from rest platform encoding
  end.

(** [FontCache::try_charmap], lines 464-480. *)
Definition try_charmap (platform encoding : Z) : M bool :=
  face <- get_face ;;
  try_charmap_from (charmaps face) platform encoding.

(** One line of the chain: [if (!charmap_set) charmap_set = try_charmap(..)]. *)
Definition unless_set (charmap_set : bool) (platform encoding : Z) : M bool :=
  if negb charmap_set then try_charmap platform encoding else ret charmap_set.

(** Lines 447-459 of [find_face_fontconfig]. *)
Definition select_charmap : M unit :=
  unicode <- FT_Select_Charmap ft_encoding_unicode ;;
  if unicode then
    face <- get_face ;;
    emit (PRINTD "Successfully selected unicode charmap: %s/%s"
                 [arg_str (family_name face); arg_str (style_name face)])
  else
    charmap_set <- ret false ;;
    charmap_set <- unless_set charmap_set TT_PLATFORM_MICROSOFT TT_MS_ID_UNICODE_CS ;;
    charmap_set <- unless_set charmap_set TT_PLATFORM_ISO TT_ISO_ID_10646 ;;
    charmap_set <- unless_set charmap_set TT_PLATFORM_APPLE_UNICODE (-1) ;;
    charmap_set <- unless_set charmap_set TT_PLATFORM_MICROSOFT TT_MS_ID_SYMBOL_CS ;;
    charmap_set <- unless_set charmap_set TT_PLATFORM_MACINTOSH TT_MAC_ID_ROMAN ;;
    charmap_set <- unless_set charmap_set TT_PLATFORM_ISO TT_ISO_ID_8859_1 ;;
    charmap_set <- unless_set charmap_set TT_PLATFORM_ISO TT_ISO_ID_7BIT_ASCII ;;
    if negb charmap_set then
      face <- get_face ;;
      emit (LOG Font_Warning "Could not select a char map for font '%1$s/%2$s'"
                [arg_str (family_name face); arg_str (style_name face)])
    else ret tt.

(** [FontCache::init_pattern], lines 383-393. *)
Definition init_pattern (pattern : FcPattern B) : FcPattern B :=
  let true_value := FcTypeBool true in
  let pattern := FcPatternAdd B pattern FC_OUTLINE true_value true in
  FcPatternAdd B pattern FC_SCALABLE true_value true.

(** The debug listing of lines 442-445. *)
Fixpoint charmap_listing (a : Z) (cms : list FT_CharMapRec) : list message :=
  match cms with
  | [] => []
  | cm :: rest =>
      PRINTD "charmap = %d: platform = %d, encoding = %d"
             [arg_int a; arg_int (platform_id cm); arg_int (encoding_id cm)]
      :: charmap_listing (a + 1) rest
  end.

(** Lines 397-440 of [find_face_fontconfig]: from the query to the loaded
    face and its feature tags, null when the font is not found, with the
    diagnostics written on the way. *)
Definition load_face (this : FontCache) (font : string)
  : option (FT_FaceRec * list string) * list message :=
  match FcNameParse B font with
  | None =>
      (None, [LOG Font_Warning "Could not parse font '%1$s'" [arg_str font]])
  | Some pattern =>
      let pattern := init_pattern pattern in
      let pattern := FcConfigSubstitute B (config this) pattern FcMatchPattern in
      let pattern := FcDefaultSubstitute B pattern in
      let match_ := FcFontMatch B (config this) pattern in
      match FcPatternGetString B match_ FC_FILE 0 with
      | None => (None, [])
      | Some file_value =>
          match FcPatternGetInteger B match_ FC_INDEX 0 with
          | None => (None, [])
          | Some font_index =>
              let '(font_features_str, found) :=
                match FcPatternGetString B match_ FC_FONT_FEATURES 0 with
                | Some s => (s, [PRINTD "Found font features: '%s'" [arg_str s]])
                | None => (EmptyString, [])
                end in
              match FT_New_Face B (library this) file_value font_index with
              | None => (None, found)
              | Some ftFace => (Some (ftFace, Str.split ";" font_features_str), found)
              end
          end
      end
  end.

(** [FontCache::find_face_fontconfig], lines 395-462: the face, null when
    the font is not found, and the diagnostics written. *)
Definition find_face_fontconfig (this : FontCache) (font : string)
  : option (FontFacePtr * list message) :=
  match load_face this font with
  | (None, msgs) => Some (None, msgs)
  | (Some (ftFace, features), msgs) =>
      let w := {| w_face := ftFace;
                  w_log := msgs ++ charmap_listing 0 (charmaps ftFace) |} in
      match select_charmap w with
      | None => None
      | Some (_, w') =>
          Some (Some {| face_ := w_face w'; features_ := features |}, w_log w')
      end
  end.

(** The local [lookup] of [find_face]: the trimmed query, or the default. *)
Definition lookup_of (font : string) : string :=
  let trimmed := Str.trim font in
  if Str.empty trimmed then DEFAULT_FONT else trimmed.

(** [FontCache::find_face], lines 367-381. *)
Definition find_face (this : FontCache) (font : string)
  : option (FontFacePtr * list message) :=
  let lookup := lookup_of font in
  let m1 := PRINTD (quoted "font = " "%s" ", lookup = " "%s")
                   [arg_str font; arg_str lookup] in
  match find_face_fontconfig this lookup with
  | None => None
  | Some (face, msgs) =>
      match face with
      | Some f =>
          Some (face, m1 :: msgs ++
                  [PRINTD (quoted "result = " "%s" ", style = " "%s")
                          [arg_str (family_name (face_ f)); arg_str (style_name (face_ f))]])
      | None => Some (face, m1 :: msgs ++ [PRINTD "font not found" []])
      end
  end.

(** [FontCache::is_init_ok], lines 315-318. *)
Definition is_init_ok (this : FontCache) : bool := init_ok this.

(** [FontCache::clear], lines 320-323. *)
Definition clear (this : FontCache) : FontCache := set_cache this [].

(** The scan of [check_cleanup], lines 340-345: [pos] with the timestamp it
    points at, [idx] the position of [it], [rest] the entries from [it] on. *)
Fixpoint scan_oldest (pos : nat) (pos_stamp : time_t) (idx : nat) (rest : cache_t) : nat :=
  match rest with
  | [] => pos
  | item :: rest' =>
      if pos_stamp >? Cache.stamp item
      then scan_oldest idx (Cache.stamp item) (S idx) rest'
      else scan_oldest pos pos_stamp (S idx) rest'
  end.

(** [FontCache::check_cleanup], lines 334-348, on the container.
    [cache.begin()++] is [cache.begin()]: the increment acts on a copy.
    With no entry at all, [*pos] reads [end()]. *)
Definition check_cleanup (c : cache_t) : option cache_t :=
  if (length c <? MAX_NR_OF_CACHE_ENTRIES)%nat then Some c
  else
    match c with
    | [] => None
    | first :: _ =>
        let pos := scan_oldest 0 (Cache.stamp first) 0 c in
        Some (Cache.erase pos c)
    end.

(** [FontCache::get_font], lines 350-365, at the time [now] that
    [time(nullptr)] reads: the returned pointer, the object afterwards and
    the diagnostics written. *)
Definition get_font (this : FontCache) (font : string) (now : time_t)
  : option (FontFacePtr * FontCache * list message) :=
  match Cache.find font (cache this) with
  | None =>
      match find_face this font with
      | None => None
      | Some (face, msgs) =>
          match face with
          | None => Some (None, this, msgs)
          | Some _ =>
              match check_cleanup (cache this) with
              | None => None
              | Some c =>
                  Some (face, set_cache this (Cache.assign font (face, now) c), msgs)
              end
          end
      end
  | Some (face, _) =>
      Some (face, set_cache this (Cache.assign font (face, now) (cache this)), [])
  end.

(** [FontCache::add_font_dir], lines 238-246: the handle is unchanged, the
    registration happens inside fontconfig. *)
Definition add_font_dir (cfg : option (FcConfig B)) (path : string) : list message :=
  if negb (fs_is_directory B path) then []
  else if negb (FcConfigAppFontAddDir B cfg path)
       then [LOG NONE "Can't register font directory '%1$s'" [arg_str path]]
       else [].

(** [FontCache::FontCache], lines 131-201: the fields of the new object and
    the diagnostics written.  Setting FONTCONFIG_PATH, loading the bundled
    configuration and running the initializer act on fontconfig only; the
    global [fontpath] list kept for the library report is left out. *)
Definition FontCache_new : FontCache * list message :=
  match FcInitLoadConfig B with
  | None =>
      ({| init_ok := false; config := None; library := None; cache := [] |},
       [LOG Font_Warning
            "Can't initialize fontconfig library, text() objects will not be rendered" []])
  | Some cfg =>
      let builtinfontpath := resourcePath_fonts B in
      let m1 := if fs_is_directory B builtinfontpath
                then add_font_dir (Some cfg) (fs_canonical B builtinfontpath)
                else [] in
      let m2 := match getenv B "HOME" with
                | Some home => add_font_dir (Some cfg) (String.append home "/.fonts")
                | None => []
                end in
      let m3 := match getenv B "OPENSCAD_FONT_PATH" with
                | Some paths =>
                    flat_map
                      (fun p => if fs_exists B p && fs_is_directory B p
                                then add_font_dir (Some cfg) (fs_absolute B p)
                                else [])
                      (Str.split (pathSeparatorChar B) paths)
                | None => []
                end in
      match FT_Init_FreeType B with
      | None =>
          ({| init_ok := false; config := Some cfg; library := None; cache := [] |},
           m1 ++ m2 ++ m3 ++
           [LOG Font_Warning
                "Can't initialize freetype library, text() objects will not be rendered" []])
      | Some lib =>
          ({| init_ok := true; config := Some cfg; library := Some lib; cache := [] |},
           m1 ++ m2 ++ m3)
      end
  end.

(** A caller resolving the queries [qs] one after the other, each with the
    clock reading of its call; the faces returned, in call order. *)
Fixpoint get_fonts (this : FontCache) (qs : list (string * time_t))
  : option (list FontFacePtr * FontCache) :=
  match qs with
  | [] => Some ([], this)
  | (font, now) :: qs' =>
      match get_font this font now with
      | None => None
      | Some (face, this', _) =>
          match get_fonts this' qs' with
          | None => None
          | Some (faces, this'') => Some (face :: faces, this'')
          end
      end
  end.

End FontCache.

Arguments init_ok {B}.
Arguments config {B}.
Arguments library {B}.
Arguments cache {B}.
Arguments set_cache {B}.
Arguments mkFontCache {B}.

(* ================================================================== *)
(** ** Reference formulations                                          *)
(* ================================================================== *)

(** The priority list of the charmap selector, steps 2 to 8. *)
Definition fallback_chain : list (Z * Z) :=
  [ (TT_PLATFORM_MICROSOFT, TT_MS_ID_UNICODE_CS);
    (TT_PLATFORM_ISO, TT_ISO_ID_10646);
    (TT_PLATFORM_APPLE_UNICODE, -1);
    (TT_PLATFORM_MICROSOFT, TT_MS_ID_SYMBOL_CS);
    (TT_PLATFORM_MACINTOSH, TT_MAC_ID_ROMAN);
    (TT_PLATFORM_ISO, TT_ISO_ID_8859_1);
    (TT_PLATFORM_ISO, TT_ISO_ID_7BIT_ASCII) ].

(** Trying the pairs of a list in order, first success wins. *)
Fixpoint try_in_order (B : Backend) (chain : list (Z * Z)) : M bool :=
  match chain with
  | [] => ret false
  | (platform, encoding) :: rest =>
      ok <- try_charmap B platform encoding ;;
      if ok then ret true else try_in_order B rest
  end.

(** The warning of step 9. *)
Definition no_charmap_warning (face : FT_FaceRec) : message :=
  LOG Font_Warning "Could not select a char map for font '%1$s/%2$s'"
      [arg_str (family_name face); arg_str (style_name face)].

(** Steps 2 to 9: what the selector does once the built-in selection of
    step 1 has failed. *)
Definition fallback_steps (B : Backend) : M unit :=
  ok <- try_in_order B fallback_chain ;;
  if ok then ret tt
  else face <- get_face ;; emit (no_charmap_warning face).

(** The first entry of the table that matches (platform, encoding). *)
Definition first_match (cms : list FT_CharMapRec) (platform encoding : Z)
  : option FT_CharMapRec :=
  List.find (fun cm => charmap_matches cm platform encoding) cms.

(** A try step as the spec words it: take the first matching entry and
    attempt to activate that entry; the attempt decides the outcome. *)
Definition try_first_match (B : Backend) (face : FT_FaceRec) (platform encoding : Z) : bool :=
  match first_match (charmaps face) platform encoding with
  | None => false
  | Some cm => ft_set_charmap B face cm
  end.

(** The first entry of the table that matches and that the engine accepts. *)
Definition first_accepted (B : Backend) (face : FT_FaceRec) (platform encoding : Z)
  : option FT_CharMapRec :=
  List.find (fun cm => charmap_matches cm platform encoding && ft_set_charmap B face cm)
            (charmaps face).

(** What a successful try step writes to the debug channel. *)
Definition selected_messages (B : Backend) (face : FT_FaceRec) (cm : FT_CharMapRec)
  : list message :=
  PRINTD "Selected charmap: platform_id = %d, encoding_id = %d"
         [arg_int (platform_id cm); arg_int (encoding_id cm)]
  :: match is_windows_symbol_font B (set_active face cm) with
     | Some true =>
         [PRINTD "Detected windows symbol font with character codes in the Private Use Area of Unicode at 0xf000: %s/%s"
                 [arg_str (family_name face); arg_str (style_name face)]]
     | _ => []
     end.

(** The face's first defined character code: [FT_Get_First_Char] reports
    glyph index 0 when the active charmap defines no character at all. *)
Definition first_defined_char (B : Backend) (face : FT_FaceRec) : option Z :=
  let '(charcode, gindex) := FT_Get_First_Char B face in
  if gindex =? 0 then None else Some charcode.

(** The query [q] is resolved successfully by the object [this]. *)
Definition resolves (B : Backend) (this : FontCache B) (q : string) : Prop :=
  exists f msgs, find_face B this q = Some (Some f, msgs).

(* ================================================================== *)
(** ** A small installation                                            *)
(* ================================================================== *)

Module Demo.

Definition unicode_cm : FT_CharMapRec := mkCharMap 3 1.
Definition symbol_cm : FT_CharMapRec := mkCharMap 3 0.
Definition mac_roman_cm : FT_CharMapRec := mkCharMap 1 0.
Definition variation_cm : FT_CharMapRec := mkCharMap 0 5.
Definition last_resort_cm : FT_CharMapRec := mkCharMap 0 6.

Definition old_mac : FT_FaceRec := mkFace "OldMac" "Regular" [mac_roman_cm] None 1.
Definition dingbats : FT_FaceRec := mkFace "Dingbats" "Regular" [symbol_cm] None 2.
Definition variations : FT_FaceRec :=
  mkFace "Variations" "Regular" [variation_cm; last_resort_cm] None 3.
Definition bare : FT_FaceRec := mkFace "Bare" "Regular" [] None 4.

(** The font files of the installation, by family name. *)
Definition font_file (name : string) : option FT_FaceRec :=
  if (name =? "NoSuchFont")%string then None
  else if (name =? "OldMac")%string then Some old_mac
  else if (name =? "Dingbats")%string then Some dingbats
  else if (name =? "Variations")%string then Some variations
  else if (name =? "Bare")%string then Some bare
  else Some (mkFace name "Regular" [unicode_cm; mac_roman_cm] None 0).

Definition same_charmap (a b : FT_CharMapRec) : bool :=
  (platform_id a =? platform_id b) && (encoding_id a =? encoding_id b).

(** An engine that finds every family but NoSuchFont, selects the
    (3,1) charmap as the Unicode one, refuses to activate a variation
    selector table (0,5), and refuses a null library handle.  [fc_ok] and
    [ft_ok] say whether the two libraries initialise. *)
Definition backend (fc_ok ft_ok : bool) : Backend :=
  {| FcConfig := unit;
     FcPattern := string;
     FT_Library := unit;
     FcInitLoadConfig := if fc_ok then Some tt else None;
     FcConfigAppFontAddDir := fun _ _ => true;
     FcNameParse := fun s => Some s;
     FcPatternAdd := fun p _ _ _ => p;
     FcConfigSubstitute := fun _ p _ => p;
     FcDefaultSubstitute := fun p => p;
     FcFontMatch := fun _ p => Some p;
     FcPatternGetString := fun p obj _ =>
       match p with
       | Some name =>
           if (obj =? FC_FILE)%string then
             match font_file name with Some _ => Some name | None => None end
           else None
       | None => None
       end;
     FcPatternGetInteger := fun p obj _ =>
       match p with Some _ => Some 0 | None => None end;
     FT_Init_FreeType := if ft_ok then Some tt else None;
     FT_New_Face := fun lib file_value _ =>
       match lib with
       | Some _ => font_file file_value
       | None => None
       end;
     ft_select_charmap := fun face _ =>
       List.find (same_charmap unicode_cm) (charmaps face);
     ft_set_charmap := fun face cm =>
       existsb (same_charmap cm) (charmaps face) && negb (same_charmap cm variation_cm);
     FT_Get_First_Char := fun face =>
       if ft_rest face =? 2 then (0xF020, 3) else (0x20, 3);
     resourcePath_fonts := "/usr/share/openscad/fonts";
     getenv := fun _ => None;
     pathSeparatorChar := ":"%char;
     fs_exists := fun _ => true;
     fs_is_directory := fun _ => true;
     fs_absolute := fun p => p;
     fs_canonical := fun p => p |}.

Definition B : Backend := backend true true.

(** The object the constructor builds on this installation. *)
Definition fresh : FontCache B := fst (FontCache_new B).

(** What resolving an ordinary family name gives here. *)
Definition loaded (name : string) : FontFacePtr :=
  Some {| face_ := mkFace name "Regular" [unicode_cm; mac_roman_cm] (Some unicode_cm) 0;
          features_ := [EmptyString] |}.

(** A full cache of three entries, resolved at times 1, 2 and 3. *)
Definition warm : FontCache B :=
  set_cache fresh [("A", (loaded "A", 1)); ("B", (loaded "B", 2)); ("C", (loaded "C", 3))].

(** The same installation with a FreeType that fails to initialise. *)
Definition broken : Backend := backend true false.

End Demo.

(* ================================================================== *)
(** ** Library versions and the font catalogue                         *)
(* ================================================================== *)

(** [OpenSCAD::library_version_number]: three unsigned numbers. *)
Record library_version_number := mkVersion {
  major : Z;
  minor : Z;
  micro : Z
}.

(** The triple that line 61 decodes from the [unsigned int] that
    [FcGetVersion] returns. *)
Definition fontconfig_runtime_version (version : Z) : library_version_number :=
  {| major := version / 10000;
     minor := (version / 100) mod 100;
     micro := version mod 100 |}.

(** The number fontconfig builds from its three components ([FC_VERSION]
    in fontconfig.h). *)
Definition fontconfig_version_number (v : library_version_number) : Z :=
  major v * 10000 + minor v * 100 + micro v.

Section Version.

(** [OpenSCAD::get_version_string] is declared in utils/version_helper.h,
    which is not among the sources: a parameter. *)
Variable get_version_string : library_version_number -> library_version_number -> string.

(** The macros of fontconfig.h and the value of [FcGetVersion()]. *)
Variables FC_MAJOR FC_MINOR FC_REVISION FcGetVersion : Z.

(** [get_fontconfig_version], lines 56-63. *)
Definition get_fontconfig_version : string :=
  let version := FcGetVersion in
  let header_version := mkVersion FC_MAJOR FC_MINOR FC_REVISION in
  let runtime_version := fontconfig_runtime_version version in
  get_version_string header_version runtime_version.

End Version.

Definition FC_FAMILY := "family"%string.
Definition FC_STYLE := "style"%string.

(** What [list_fonts] asks of fontconfig beyond [Backend]: the empty
    pattern, the listing of the installed fonts that match a pattern (a
    null font set is [None]) and the structural hash of a pattern. *)
Record Catalogue (B : Backend) := mkCatalogue {
  FcPatternCreate : FcPattern B;
  FcFontList : option (FcConfig B) -> FcPattern B -> list string -> option (list (FcPattern B));
  FcPatternHash : FcPattern B -> Z
}.

Arguments FcPatternCreate {B}.
Arguments FcFontList {B}.
Arguments FcPatternHash {B}.

Section Enumerate.

Variable B : Backend.
Variable K : Catalogue B.

(** The body of the loop of [list_fonts], lines 286-309, over the fonts
    from position [a] on: a pattern without file, family or style is
    skipped. *)
Fixpoint list_fonts_from (fonts : list (FcPattern B)) : list FontInfo :=
  match fonts with
  | [] => []
  | p :: rest =>
      match FcPatternGetString B (Some p) FC_FILE 0 with
      | None => list_fonts_from rest
      | Some file_value =>
          match FcPatternGetString B (Some p) FC_FAMILY 0 with
          | None => list_fonts_from rest
          | Some family_value =>
              match FcPatternGetString B (Some p) FC_STYLE 0 with
              | None => list_fonts_from rest
              | Some style_value =>
                  mkFontInfo family_value style_value file_value (FcPatternHash K p)
                  :: list_fonts_from rest
              end
          end
      end
  end.

(** [FontCache::list_fonts], lines 276-313.  [font_set->nfont] is read
    without a null test. *)
Definition list_fonts (this : FontCache B) : option (list FontInfo) :=
  let object_set := [FC_FAMILY; FC_STYLE; FC_FILE] in
  let pattern := init_pattern B (FcPatternCreate K) in
  match FcFontList K (config this) pattern object_set with
  | None => None
  | Some font_set => Some (list_fonts_from font_set)
  end.

(** A pattern that carries the three strings [list_fonts] needs. *)
Definition complete (p : FcPattern B) : bool :=
  match FcPatternGetString B (Some p) FC_FILE 0,
        FcPatternGetString B (Some p) FC_FAMILY 0,
        FcPatternGetString B (Some p) FC_STYLE 0 with
  | Some _, Some _, Some _ => true
  | _, _, _ => false
  end.

(** The record [list_fonts] builds from a pattern (empty strings stand in
    where a string is missing). *)
Definition info_of (p : FcPattern B) : FontInfo :=
  let get obj := match FcPatternGetString B (Some p) obj 0 with
                 | Some s => s
                 | None => EmptyString
                 end in
  mkFontInfo (get FC_FAMILY) (get FC_STYLE) (get FC_FILE) (FcPatternHash K p).

End Enumerate.

Arguments list_fonts {B}.
Arguments list_fonts_from {B}.
Arguments complete {B}.
Arguments info_of {B}.

(* ================================================================== *)
(** ** Reference formulations for the cache                            *)
(* ================================================================== *)

(** The lexicographic order on (family, style, file). *)
Definition FontInfo_lex_lt (a b : FontInfo) : bool :=
  match String.compare (family a) (family b) with
  | Lt => true
  | Gt => false
  | Eq => match String.compare (style a) (style b) with
          | Lt => true
          | Gt => false
          | Eq => (file a <? file b)%string
          end
  end.

(** Every entry holds a face. *)
Definition no_null_faces (c : cache_t) : Prop :=
  Forall (fun x => fst (snd x) <> None) c.

(** The keys of a cache with their timestamps. *)
Definition stamps_of (c : cache_t) : list (string * time_t) :=
  map (fun x => (fst x, Cache.stamp x)) c.

(** A recency list: keys with the time of their last use, most recent
    first, all times distinct. *)
Definition recency_sorted (l : list (string * time_t)) : Prop :=
  StronglySorted (fun a b => snd b < snd a) l.

(** The textbook least-recently-used policy on a recency list of at most
    [max] keys: the key used moves to the front, and the list is cut at
    [max]. *)
Definition lru_touch (max : nat) (l : list (string * time_t)) (key : string) (now : time_t)
  : list (string * time_t) :=
  firstn max ((key, now) :: List.filter (fun q => negb (fst q =? key)%string) l).

(** The policy over a run of calls: a call that returned a face counts as
    a use of its key at the time of the call, a call that returned the null
    pointer does not count. *)
Fixpoint lru_run (max : nat) (l : list (string * time_t))
         (qs : list (string * time_t)) (faces : list FontFacePtr)
  : list (string * time_t) :=
  match qs, faces with
  | (key, now) :: qs', Some _ :: faces' => lru_run max (lru_touch max l key now) qs' faces'
  | _ :: qs', None :: faces' => lru_run max l qs' faces'
  | _, _ => l
  end.

(** The clock readings of a run of calls go up strictly, from above
    [start]. *)
Fixpoint clock_advances (start : time_t) (qs : list (string * time_t)) : Prop :=
  match qs with
  | [] => True
  | (_, now) :: qs' => start < now /\ clock_advances now qs'
  end.

(** The cache [c] holds exactly the keys of the recency list [l], each
    with the timestamp the list gives it, one entry per key. *)
Definition tracks (c : cache_t) (l : list (string * time_t)) : Prop :=
  NoDup (Cache.keys c) /\ Permutation (stamps_of c) l /\ recency_sorted l.

(** The face [face] with [active] as its active charmap. *)
Definition with_charmap (face : FT_FaceRec) (active : option FT_CharMapRec) : FT_FaceRec :=
  {| family_name := family_name face;
     style_name := style_name face;
     charmaps := charmaps face;
     charmap := active;
     ft_rest := ft_rest face |}.

(** The first pair of the priority list for which the table of [face] has
    an entry that the engine accepts. *)
Definition accepted_pair (B : Backend) (face : FT_FaceRec) : option (Z * Z) :=
  List.find (fun q => match first_accepted B face (fst q) (snd q) with
                      | Some _ => true
                      | None => false
                      end) fallback_chain.

(** The charmap the selector ends up with on a freshly loaded [face], and
    what it writes: the engine's own choice of a Unicode charmap, else the
    entry found for the first pair that succeeds, else nothing and the
    warning. *)
Definition selection (B : Backend) (face : FT_FaceRec)
  : option FT_CharMapRec * list message :=
  match ft_select_charmap B face ft_encoding_unicode with
  | Some cm =>
      (Some cm,
       [PRINTD "Successfully selected unicode charmap: %s/%s"
               [arg_str (family_name face); arg_str (style_name face)]])
  | None =>
      match accepted_pair B face with
      | Some q =>
          match first_accepted B face (fst q) (snd q) with
          | Some cm => (Some cm, selected_messages B face cm)
          | None => (None, [no_charmap_warning face])
          end
      | None => (None, [no_charmap_warning face])
      end
  end.

(** The debug trace that announces a Windows symbol font. *)
Definition is_symbol_trace (m : message) : bool :=
  match m with
  | PRINTD fmt _ =>
      (fmt =? "Detected windows symbol font with character codes in the Private Use Area of Unicode at 0xf000: %s/%s")%string
  | LOG _ _ _ => false
  end.

Definition is_font_warning (m : message) : bool :=
  match m with
  | LOG Font_Warning _ _ => true
  | _ => false
  end.

(** No character of the string is a blank at either end. *)
Definition starts_blank (s : string) : bool :=
  match s with
  | String c _ => Str.is_space c
  | EmptyString => false
  end.

Fixpoint ends_blank (s : string) : bool :=
  match s with
  | EmptyString => false
  | String c EmptyString => Str.is_space c
  | String _ s' => ends_blank s'
  end.

Fixpoint all_blank (s : string) : bool :=
  match s with
  | EmptyString => true
  | String c s' => Str.is_space c && all_blank s'
  end.

Fixpoint contains (sep : ascii) (s : string) : bool :=
  match s with
  | EmptyString => false
  | String c s' => Ascii.eqb c sep || contains sep s'
  end.

(* ================================================================== *)
(** ** A small font catalogue                                          *)
(* ================================================================== *)

Module DemoCatalogue.

(** A fontconfig whose patterns are family names; the pattern Incomplete
    has no style. *)
Definition get_string (p : option string) (obj : string) (n : Z) : option string :=
  match p with
  | None => None
  | Some name =>
      if (obj =? FC_FILE)%string then Some (String.append "/fonts/" name)
      else if (obj =? FC_FAMILY)%string then Some name
      else if (obj =? FC_STYLE)%string then
        if (name =? "Incomplete")%string then None else Some "Regular"%string
      else None
  end.

Definition B : Backend :=
  {| FcConfig := unit;
     FcPattern := string;
     FT_Library := unit;
     FcInitLoadConfig := Some tt;
     FcConfigAppFontAddDir := fun _ _ => false;
     FcNameParse := fun s => Some s;
     FcPatternAdd := fun p _ _ _ => p;
     FcConfigSubstitute := fun _ p _ => p;
     FcDefaultSubstitute := fun p => p;
     FcFontMatch := fun _ p => Some p;
     FcPatternGetString := get_string;
     FcPatternGetInteger := fun p _ _ => match p with Some _ => Some 0 | None => None end;
     FT_Init_FreeType := Some tt;
     FT_New_Face := fun _ _ _ => None;
     ft_select_charmap := fun _ _ => None;
     ft_set_charmap := fun _ _ => false;
     FT_Get_First_Char := fun _ => (0, 0);
     resourcePath_fonts := "/usr/share/openscad/fonts";
     getenv := fun name => if (name =? "HOME")%string then Some "/home/user"%string else None;
     pathSeparatorChar := ":"%char;
     fs_exists := fun _ => true;
     fs_is_directory := fun _ => true;
     fs_absolute := fun p => p;
     fs_canonical := fun p => p |}.

Definition K : Catalogue B :=
  {| FcPatternCreate := EmptyString : FcPattern B;
     FcFontList := fun _ _ _ => Some ["DejaVu Sans"%string; "Incomplete"%string; "Liberation Sans"%string];
     FcPatternHash := fun p => Z.of_nat (String.length p) |}.

Definition fresh : FontCache B := fst (FontCache_new B).

End DemoCatalogue.

(* ================================================================== *)
(** * Properties                                                       *)
(* ================================================================== *)

(** ** Trimming *)

Module StrFacts.
Import Str.

Lemma trim_left_space (c : ascii) (s : string) :
  is_space c = true -> trim_left (String c s) = trim_left s.
Proof. intros H. simpl. now rewrite H. Qed.

Lemma trim_left_head (c : ascii) (s : string) :
  is_space c = false -> trim_left (String c s) = String c s.
Proof. intros H. simpl. now rewrite H. Qed.

(** The result of [trim_right] is empty or starts with the first character
    of its argument. *)
Lemma trim_right_cons (c : ascii) (s : string) :
  trim_right (String c s) = EmptyString \/
  exists r, trim_right (String c s) = String c r.
Proof.
  simpl. destruct (trim_right s) as [|c' r].
  - destruct (is_space c); [now left | right; now exists EmptyString].
  - right. now exists (String c' r).
Qed.

Lemma trim_right_cons_space (c : ascii) (s : string) :
  is_space c = true ->
  trim_left (trim_right (String c s)) = trim_left (trim_right s).
Proof.
  intros H. simpl. destruct (trim_right s) as [|c' r].
  - now rewrite H.
  - now rewrite trim_left_space.
Qed.

Lemma trim_right_snoc_space (s : string) (c : ascii) :
  is_space c = true ->
  trim_right (String.append s (String c EmptyString)) = trim_right s.
Proof.
  intros H. induction s as [|d s IH]; simpl.
  - now rewrite H.
  - now rewrite IH.
Qed.

Lemma trim_right_idem (s : string) : trim_right (trim_right s) = trim_right s.
Proof.
  induction s as [|c s IH]; simpl; [reflexivity|].
  destruct (trim_right s) as [|c' r] eqn:E.
  - destruct (is_space c) eqn:Hc; simpl; [reflexivity | now rewrite Hc].
  - simpl in *. now rewrite IH.
Qed.

Lemma trim_left_idem (s : string) : trim_left (trim_left s) = trim_left s.
Proof.
  induction s as [|c s IH]; simpl; [reflexivity|].
  destruct (is_space c) eqn:Hc; [exact IH | simpl; now rewrite Hc].
Qed.

(** Trimming the two ends commutes. *)
Lemma trim_right_left (s : string) :
  trim_right (trim_left s) = trim_left (trim_right s).
Proof.
  induction s as [|c s IH]; [reflexivity|].
  destruct (is_space c) eqn:Hc.
  - rewrite trim_left_space, trim_right_cons_space by assumption. exact IH.
  - rewrite trim_left_head by assumption.
    destruct (trim_right_cons c s) as [E | [r E]]; rewrite E.
    + reflexivity.
    + now rewrite trim_left_head.
Qed.

Lemma trim_idem (s : string) : trim (trim s) = trim s.
Proof.
  unfold trim.
  now rewrite trim_right_left, trim_right_idem, trim_left_idem.
Qed.

(** Blanks around a query do not change what [trim] gives. *)
Lemma trim_padded (q : string) :
  trim (String.append "  " (String.append q "  ")) = trim q.
Proof.
  unfold trim.
  change (String.append "  " (String.append q "  "))
    with (String " " (String " " (String.append q "  "))).
  rewrite !trim_right_cons_space by reflexivity.
  replace (String.append q "  ")
    with (String.append (String.append q " ") " ").
  - now rewrite !trim_right_snoc_space by reflexivity.
  - induction q as [|c q IH]; simpl; [reflexivity | now rewrite IH].
Qed.

End StrFacts.

(** ** The [FontInfo] ordering *)

(** C9: [FontInfo::operator<] answers true as soon as the family is
    smaller, or else as soon as the style is smaller (whatever the
    families are), and otherwise compares the files; it is not a strict
    order: two records can each be smaller than the other. *)
Theorem FontInfo_lt_not_asymmetric :
  (forall a b : FontInfo,
      FontInfo_lt a b =
      (family a <? family b)%string || (style a <? style b)%string
      || (file a <? file b)%string)
  /\ (exists a b : FontInfo,
         (family b <? family a)%string = true
         /\ (style a <? style b)%string = true
         /\ FontInfo_lt a b = true /\ FontInfo_lt b a = true).
Proof.
  split.
  - intros a b. unfold FontInfo_lt.
    destruct (family a <? family b)%string; [reflexivity|].
    destruct (style a <? style b)%string; reflexivity.
  - exists (mkFontInfo "B" "Bold" "b.ttf" 1), (mkFontInfo "A" "Regular" "a.ttf" 2).
    repeat split.
Qed.

(** ** The charmap selector *)

Section Charmap.

Variable B : Backend.

Lemma FT_Set_Charmap_run (cm : FT_CharMapRec) (w : world) :
  FT_Set_Charmap B cm w =
  if ft_set_charmap B (w_face w) cm
  then Some (true, {| w_face := set_active (w_face w) cm; w_log := w_log w |})
  else Some (false, w).
Proof.
  unfold FT_Set_Charmap, bind, get_face.
  destruct (ft_set_charmap B (w_face w) cm); reflexivity.
Qed.

(** Once a charmap is active the diagnostic test is defined. *)
Lemma is_windows_symbol_font_active (face : FT_FaceRec) (cm : FT_CharMapRec) :
  exists b, is_windows_symbol_font B (set_active face cm) = Some b.
Proof.
  unfold is_windows_symbol_font. simpl.
  destruct (negb (platform_id cm =? TT_PLATFORM_MICROSOFT)); [now exists false|].
  destruct (negb (encoding_id cm =? TT_MS_ID_SYMBOL_CS)); [now exists false|].
  destruct (FT_Get_First_Char B (set_active face cm)) as [charcode gindex].
  destruct ((gindex =? 0) || (charcode <? 61440)); [now exists false | now exists true].
Qed.

(** The loop of [try_charmap] stops at the first entry that matches and
    that the engine accepts. *)
Lemma try_charmap_from_run (platform encoding : Z) (cms : list FT_CharMapRec) (w : world) :
  try_charmap_from B cms platform encoding w =
  match List.find (fun cm => charmap_matches cm platform encoding
                             && ft_set_charmap B (w_face w) cm) cms with
  | None => Some (false, w)
  | Some cm =>
      Some (true, {| w_face := set_active (w_face w) cm;
                     w_log := w_log w ++ selected_messages B (w_face w) cm |})
  end.
Proof.
  induction cms as [|cm rest IH]; [reflexivity|].
  simpl. destruct (charmap_matches cm platform encoding); simpl; [|exact IH].
  unfold bind at 1. rewrite FT_Set_Charmap_run.
  destruct (ft_set_charmap B (w_face w) cm); [|exact IH].
  unfold selected_messages, bind, emit, get_face, lift_option, ret. simpl.
  destruct (is_windows_symbol_font_active (w_face w) cm) as [b Hb].
  rewrite Hb. destruct b; simpl; rewrite <- ?app_assoc; reflexivity.
Qed.

Lemma try_charmap_run (platform encoding : Z) (w : world) :
  try_charmap B platform encoding w =
  match first_accepted B (w_face w) platform encoding with
  | None => Some (false, w)
  | Some cm =>
      Some (true, {| w_face := set_active (w_face w) cm;
                     w_log := w_log w ++ selected_messages B (w_face w) cm |})
  end.
Proof.
  unfold try_charmap, bind, get_face, first_accepted.
  apply try_charmap_from_run.
Qed.

(** The amended C7: a try step scans the face's charmap table in order and
    attempts to activate every entry that matches the platform and (unless
    wildcarded by a negative value) the encoding, until an activation
    succeeds.  It reports success exactly when some matching entry can be
    activated; the entry left active is the first such one, and a failed
    step leaves the face and the log as they were. *)
Theorem try_charmap_first_accepted (platform encoding : Z) (w : world) :
  try_charmap B platform encoding w =
  match first_accepted B (w_face w) platform encoding with
  | None => Some (false, w)
  | Some cm =>
      Some (true, {| w_face := set_active (w_face w) cm;
                     w_log := w_log w ++ selected_messages B (w_face w) cm |})
  end.
Proof. apply try_charmap_run. Qed.

(** C8: the Windows-symbol-font test answers true exactly when the active
    charmap is (Microsoft, Symbol) and the face's first defined character
    code is at least 0xF000; without an active charmap it is undefined. *)
Theorem is_windows_symbol_font_iff (face : FT_FaceRec) :
  is_windows_symbol_font B face =
  match charmap face with
  | None => None
  | Some active =>
      Some ((platform_id active =? TT_PLATFORM_MICROSOFT)
            && (encoding_id active =? TT_MS_ID_SYMBOL_CS)
            && match first_defined_char B face with
               | Some charcode => 0xF000 <=? charcode
               | None => false
               end)
  end.
Proof.
  unfold is_windows_symbol_font, first_defined_char.
  destruct (charmap face) as [active|]; [|reflexivity].
  destruct (platform_id active =? TT_PLATFORM_MICROSOFT); [|reflexivity].
  destruct (encoding_id active =? TT_MS_ID_SYMBOL_CS); [|reflexivity].
  destruct (FT_Get_First_Char B face) as [charcode gindex].
  destruct (gindex =? 0); simpl; [reflexivity|].
  destruct (Z.ltb_spec charcode 61440), (Z.leb_spec 61440 charcode);
    try reflexivity; lia.
Qed.

End Charmap.

Section Fallback.

Variable B : Backend.

(** The chain of guarded assignments is the ordered list, tried until the
    first success. *)
Lemma select_charmap_steps (w : world) :
  ft_select_charmap B (w_face w) ft_encoding_unicode = None ->
  select_charmap B w = fallback_steps B w.
Proof.
  intros Hsel.
  unfold select_charmap, fallback_steps, fallback_chain, try_in_order.
  unfold bind at 1. unfold FT_Select_Charmap, bind at 1, get_face at 1.
  rewrite Hsel.
  cbv beta iota delta [bind ret unless_set negb].
  repeat match goal with
  | |- context [try_charmap B ?p ?e ?w0] =>
      destruct (try_charmap B p e w0) as [[[|] ?]|]; try reflexivity
  end.
Qed.

Lemma try_in_order_run (chain : list (Z * Z)) (w : world) :
  try_in_order B chain w =
  match List.find (fun q => match first_accepted B (w_face w) (fst q) (snd q) with
                            | Some _ => true
                            | None => false
                            end) chain with
  | None => Some (false, w)
  | Some q => try_charmap B (fst q) (snd q) w
  end.
Proof.
  induction chain as [|[platform encoding] rest IH]; [reflexivity|].
  simpl. unfold bind at 1.
  destruct (first_accepted B (w_face w) platform encoding) as [cm|] eqn:E.
  - simpl fst; simpl snd. rewrite try_charmap_run, E. reflexivity.
  - rewrite try_charmap_run, E. exact IH.
Qed.

Lemma find_at_first {A : Type} (p : A -> bool) (before : list A) (x : A) (after : list A) :
  (forall y, In y before -> p y = false) -> p x = true ->
  List.find p (before ++ x :: after) = Some x.
Proof.
  induction before as [|y before IH]; simpl; intros Hb Hx.
  - now rewrite Hx.
  - rewrite (Hb y) by now left. apply IH; [|assumption].
    intros z Hz. apply Hb. now right.
Qed.

Lemma find_nowhere {A : Type} (p : A -> bool) (l : list A) :
  (forall y, In y l -> p y = false) -> List.find p l = None.
Proof.
  induction l as [|y l IH]; simpl; intros Hl; [reflexivity|].
  rewrite (Hl y) by now left. apply IH. intros z Hz. apply Hl. now right.
Qed.

(** C6: when the built-in selection of the Unicode charmap fails on the
    loaded face, the resolver tries (Microsoft, Unicode-BMP), (ISO, 10646),
    (Apple-Unicode, any), (Microsoft, Symbol), (Macintosh, Roman),
    (ISO, 8859-1) and (ISO, 7-bit ASCII) in this order and stops at the
    first success: the face comes back with the charmap of the first pair
    of the list that can be activated.  When no pair can, the face comes
    back all the same, unchanged, after a warning that names its family
    and style. *)
Theorem charmap_fallback_order
  (this : FontCache B) (font : string)
  (ftFace : FT_FaceRec) (features : list string) (msgs : list message) :
  load_face B this font = (Some (ftFace, features), msgs) ->
  ft_select_charmap B ftFace ft_encoding_unicode = None ->
  let w := {| w_face := ftFace;
              w_log := msgs ++ charmap_listing 0 (charmaps ftFace) |} in
  select_charmap B w = fallback_steps B w
  /\ (forall before platform encoding after cm,
         fallback_chain = before ++ (platform, encoding) :: after ->
         (forall q, In q before -> first_accepted B ftFace (fst q) (snd q) = None) ->
         first_accepted B ftFace platform encoding = Some cm ->
         find_face_fontconfig B this font =
         Some (Some {| face_ := set_active ftFace cm; features_ := features |},
               w_log w ++ selected_messages B ftFace cm))
  /\ ((forall q, In q fallback_chain -> first_accepted B ftFace (fst q) (snd q) = None) ->
       find_face_fontconfig B this font =
       Some (Some {| face_ := ftFace; features_ := features |},
             w_log w ++ [no_charmap_warning ftFace])).
Proof.
  intros Hload Hsel w.
  assert (Hsteps : select_charmap B w = fallback_steps B w)
    by (apply select_charmap_steps; exact Hsel).
  split; [exact Hsteps|]. split.
  - intros before platform encoding after cm Hchain Hbefore Hcm.
    unfold find_face_fontconfig. rewrite Hload. fold w. rewrite Hsteps.
    unfold fallback_steps, bind. rewrite try_in_order_run, Hchain.
    rewrite (find_at_first _ before (platform, encoding) after).
    + simpl fst; simpl snd. rewrite try_charmap_run. simpl w_face.
      rewrite Hcm. reflexivity.
    + intros q Hq. simpl. now rewrite (Hbefore q Hq).
    + simpl. now rewrite Hcm.
  - intros Hnone.
    unfold find_face_fontconfig. rewrite Hload. fold w. rewrite Hsteps.
    unfold fallback_steps, bind. rewrite try_in_order_run.
    rewrite find_nowhere.
    + reflexivity.
    + intros q Hq. simpl. now rewrite (Hnone q Hq).
Qed.


End Fallback.

(** ** The container *)

Module CacheFacts.
Import Cache.

Lemma find_keys (key : string) (c : cache_t) :
  find key c = None <-> ~ In key (keys c).
Proof.
  induction c as [|[k e] c IH]; simpl.
  - tauto.
  - destruct (String.eqb_spec k key) as [->|Hne].
    + split; [discriminate | intros H; exfalso; apply H; now left].
    + rewrite IH. tauto.
Qed.

Lemma find_some_keys (key : string) (c : cache_t) (e : cache_entry_t) :
  find key c = Some e -> In key (keys c).
Proof.
  intros H. destruct (in_dec string_dec key (keys c)) as [Hin|Hout]; [assumption|].
  apply find_keys in Hout. congruence.
Qed.

Lemma find_app (key : string) (l1 l2 : cache_t) :
  find key (l1 ++ l2) =
  match find key l1 with
  | Some e => Some e
  | None => find key l2
  end.
Proof.
  induction l1 as [|[k e] l1 IH]; simpl; [reflexivity|].
  destruct (k =? key)%string; [reflexivity | exact IH].
Qed.

Lemma keys_replace (key : string) (e : cache_entry_t) (c : cache_t) :
  keys (replace key e c) = keys c.
Proof.
  induction c as [|[k e'] c IH]; simpl; [reflexivity|].
  destruct (k =? key)%string; simpl; [reflexivity | now rewrite IH].
Qed.

Lemma find_replace_same (key : string) (e e0 : cache_entry_t) (c : cache_t) :
  find key c = Some e0 -> find key (replace key e c) = Some e.
Proof.
  induction c as [|[k e'] c IH]; simpl; [discriminate|].
  destruct (k =? key)%string eqn:E; simpl; rewrite E; [reflexivity | exact IH].
Qed.

Lemma find_replace_other (key k : string) (e : cache_entry_t) (c : cache_t) :
  k <> key -> find k (replace key e c) = find k c.
Proof.
  intros Hne. induction c as [|[k' e'] c IH]; simpl; [reflexivity|].
  destruct (String.eqb_spec k' key) as [->|Hk]; simpl.
  - destruct (String.eqb_spec key k); [congruence | reflexivity].
  - now rewrite IH.
Qed.

Lemma length_insert_new (key : string) (e : cache_entry_t) (c : cache_t) :
  length (insert_new key e c) = S (length c).
Proof.
  induction c as [|[k e'] c IH]; simpl; [reflexivity|].
  destruct (key <? k)%string; simpl; [reflexivity | now rewrite IH].
Qed.

Lemma find_insert_new_same (key : string) (e : cache_entry_t) (c : cache_t) :
  find key c = None -> find key (insert_new key e c) = Some e.
Proof.
  induction c as [|[k e'] c IH]; simpl.
  - now rewrite String.eqb_refl.
  - destruct (String.eqb_spec k key) as [->|Hk]; [discriminate|]. intros Hc.
    destruct (key <? k)%string; simpl.
    + now rewrite String.eqb_refl.
    + destruct (String.eqb_spec k key); [congruence | now apply IH].
Qed.

Lemma find_insert_new_other (key k : string) (e : cache_entry_t) (c : cache_t) :
  k <> key -> find k (insert_new key e c) = find k c.
Proof.
  intros Hne. induction c as [|[k' e'] c IH]; simpl.
  - destruct (String.eqb_spec key k); [congruence | reflexivity].
  - destruct (key <? k')%string; simpl.
    + destruct (String.eqb_spec key k); [congruence | reflexivity].
    + now rewrite IH.
Qed.

Lemma keys_insert_new (key k : string) (e : cache_entry_t) (c : cache_t) :
  In k (keys (insert_new key e c)) <-> k = key \/ In k (keys c).
Proof.
  induction c as [|[k' e'] c IH]; simpl.
  - intuition congruence.
  - destruct (key <? k')%string; simpl.
    + intuition congruence.
    + rewrite IH. tauto.
Qed.

Lemma NoDup_insert_new (key : string) (e : cache_entry_t) (c : cache_t) :
  ~ In key (keys c) -> NoDup (keys c) -> NoDup (keys (insert_new key e c)).
Proof.
  induction c as [|[k' e'] c IH]; simpl; intros Hout Hnd.
  - constructor; [tauto | constructor].
  - destruct (key <? k')%string; simpl.
    + constructor; [simpl; tauto | assumption].
    + inversion Hnd as [|? ? Hk' Hnd']; subst.
      constructor.
      * rewrite keys_insert_new. intuition congruence.
      * apply IH; tauto.
Qed.

Lemma find_assign_same (key : string) (e : cache_entry_t) (c : cache_t) :
  find key (assign key e c) = Some e.
Proof.
  unfold assign. destruct (find key c) as [e0|] eqn:E.
  - now apply find_replace_same with e0.
  - now apply find_insert_new_same.
Qed.

Lemma find_assign_other (key k : string) (e : cache_entry_t) (c : cache_t) :
  k <> key -> find k (assign key e c) = find k c.
Proof.
  intros Hne. unfold assign. destruct (find key c).
  - now apply find_replace_other.
  - now apply find_insert_new_other.
Qed.

Lemma length_assign_new (key : string) (e : cache_entry_t) (c : cache_t) :
  find key c = None -> length (assign key e c) = S (length c).
Proof. intros H. unfold assign. rewrite H. apply length_insert_new. Qed.

Lemma NoDup_assign (key : string) (e : cache_entry_t) (c : cache_t) :
  NoDup (keys c) -> NoDup (keys (assign key e c)).
Proof.
  intros Hnd. unfold assign. destruct (find key c) eqn:E.
  - now rewrite keys_replace.
  - apply NoDup_insert_new; [now apply find_keys | assumption].
Qed.

Lemma erase_at (l1 : cache_t) (x : string * cache_entry_t) (l2 : cache_t) :
  erase (length l1) (l1 ++ x :: l2) = l1 ++ l2.
Proof.
  unfold erase. induction l1 as [|a l1 IH]; [reflexivity|].
  change (a :: firstn (length l1) (l1 ++ x :: l2) ++ skipn (S (length l1)) (l1 ++ x :: l2)
          = a :: l1 ++ l2).
  now rewrite IH.
Qed.

(** With one entry per key, erasing an entry makes its key absent and
    leaves the lookups of the other keys alone. *)
Lemma find_erased (l1 : cache_t) (x : string * cache_entry_t) (l2 : cache_t) :
  NoDup (keys (l1 ++ x :: l2)) -> find (fst x) (l1 ++ l2) = None.
Proof.
  intros Hnd. apply find_keys. unfold keys in *.
  rewrite map_app in *. simpl in Hnd.
  apply NoDup_remove_2 in Hnd. exact Hnd.
Qed.

Lemma find_not_erased (k : string) (l1 : cache_t) (x : string * cache_entry_t) (l2 : cache_t) :
  k <> fst x -> find k (l1 ++ l2) = find k (l1 ++ x :: l2).
Proof.
  intros Hne. rewrite !find_app. destruct (find k l1); [reflexivity|].
  destruct x as [kx ex]. simpl in *.
  destruct (String.eqb_spec kx k); [congruence | reflexivity].
Qed.

Lemma find_present (l1 : cache_t) (k : string) (e : cache_entry_t) (l2 : cache_t) :
  NoDup (keys (l1 ++ (k, e) :: l2)) -> find k (l1 ++ (k, e) :: l2) = Some e.
Proof.
  intros Hnd. rewrite find_app.
  destruct (find k l1) as [e1|] eqn:E.
  - exfalso. apply find_some_keys in E. unfold keys in *.
    rewrite map_app in Hnd. simpl in Hnd. apply NoDup_remove_2 in Hnd.
    apply Hnd. apply in_or_app. now left.
  - simpl. now rewrite String.eqb_refl.
Qed.

Ltac stamps := unfold stamp in *; simpl in *; lia.

(** The scan keeps in [pos] the first entry with the smallest timestamp
    among those visited. *)
Lemma scan_oldest_invariant (rest l1 : cache_t) (x : string * cache_entry_t) (l1' : cache_t) :
  (forall y, In y l1 -> stamp x < stamp y) ->
  (forall y, In y l1' -> stamp x <= stamp y) ->
  exists m1 z m2,
    l1 ++ x :: l1' ++ rest = m1 ++ z :: m2
    /\ scan_oldest (length l1) (stamp x) (length (l1 ++ x :: l1')) rest = length m1
    /\ (forall y, In y m1 -> stamp z < stamp y)
    /\ (forall y, In y m2 -> stamp z <= stamp y).
Proof.
  revert l1 x l1'. induction rest as [|item rest IH]; intros l1 x l1' Hlt Hle.
  - exists l1, x, l1'. rewrite app_nil_r. simpl. auto.
  - simpl. destruct (Z.gtb_spec (stamp x) (stamp item)) as [Hgt|Hngt].
    + destruct (IH (l1 ++ x :: l1') item []) as (m1 & z & m2 & Heq & Hpos & H1 & H2).
      * intros y Hy. apply in_app_or in Hy. destruct Hy as [Hy|[<-|Hy]].
        -- specialize (Hlt y Hy). lia.
        -- lia.
        -- specialize (Hle y Hy). lia.
      * intros y [].
      * exists m1, z, m2. repeat split; try assumption.
        -- rewrite <- Heq. rewrite <- !app_assoc. reflexivity.
        -- rewrite <- Hpos. f_equal. rewrite (length_app (l1 ++ x :: l1') [item]).
           simpl. lia.
    + destruct (IH l1 x (l1' ++ [item])) as (m1 & z & m2 & Heq & Hpos & H1 & H2).
      * assumption.
      * intros y Hy. apply in_app_or in Hy. destruct Hy as [Hy|[<-|[]]].
        -- now apply Hle.
        -- lia.
      * exists m1, z, m2. repeat split; try assumption.
        -- rewrite <- Heq. rewrite <- !app_assoc. reflexivity.
        -- rewrite <- Hpos. f_equal.
           rewrite !(length_app l1). simpl. rewrite (length_app l1' [item]).
           simpl. lia.
Qed.

Lemma scan_oldest_first (first : string * cache_entry_t) (rest : cache_t) :
  exists m1 z m2,
    first :: rest = m1 ++ z :: m2
    /\ scan_oldest 0 (stamp first) 0 (first :: rest) = length m1
    /\ (forall y, In y m1 -> stamp z < stamp y)
    /\ (forall y, In y m2 -> stamp z <= stamp y).
Proof.
  simpl. rewrite Z.gtb_ltb, Z.ltb_irrefl.
  apply (scan_oldest_invariant rest [] first []); intros y [].
Qed.

End CacheFacts.

(** ** The cache *)

Section Store.

Variable B : Backend.
Variable MAX : nat.

Import Cache CacheFacts.

Lemma check_cleanup_under (c : cache_t) :
  (length c < MAX)%nat -> check_cleanup MAX c = Some c.
Proof.
  intros H. unfold check_cleanup.
  destruct (Nat.ltb_spec (length c) MAX); [reflexivity | lia].
Qed.

Lemma check_cleanup_full (c : cache_t) :
  c <> [] -> (MAX <= length c)%nat ->
  exists l1 x l2,
    c = l1 ++ x :: l2
    /\ check_cleanup MAX c = Some (l1 ++ l2)
    /\ (forall y, In y l1 -> stamp x < stamp y)
    /\ (forall y, In y l2 -> stamp x <= stamp y).
Proof.
  intros Hne Hfull. unfold check_cleanup.
  destruct (Nat.ltb_spec (length c) MAX); [lia|].
  destruct c as [|first rest]; [congruence|].
  destruct (scan_oldest_first first rest) as (m1 & z & m2 & Heq & Hpos & H1 & H2).
  exists m1, z, m2. repeat split; try assumption.
  rewrite Hpos, Heq, erase_at. reflexivity.
Qed.

Lemma get_font_hit (this : FontCache B) (font : string) (now : time_t)
      (face : FontFacePtr) (t : time_t) :
  find font (cache this) = Some (face, t) ->
  get_font B MAX this font now =
  Some (face, set_cache this (replace font (face, now) (cache this)), []).
Proof.
  intros H. unfold get_font, assign. rewrite H. reflexivity.
Qed.

Lemma get_font_miss_none (this : FontCache B) (font : string) (now : time_t)
      (msgs : list message) :
  find font (cache this) = None ->
  find_face B this font = Some (None, msgs) ->
  get_font B MAX this font now = Some (None, this, msgs).
Proof.
  intros Hmiss Hres. unfold get_font. rewrite Hmiss, Hres. reflexivity.
Qed.

Lemma get_font_miss_some (this : FontCache B) (font : string) (now : time_t)
      (f : FontFace) (msgs : list message) (c : cache_t) :
  find font (cache this) = None ->
  find_face B this font = Some (Some f, msgs) ->
  check_cleanup MAX (cache this) = Some c ->
  get_font B MAX this font now =
  Some (Some f, set_cache this (assign font (Some f, now) c), msgs).
Proof.
  intros Hmiss Hres Hclean. unfold get_font. rewrite Hmiss, Hres, Hclean. reflexivity.
Qed.

(** The resolver never stays silent: it traces the query before anything
    else. *)
Lemma find_face_traces (this : FontCache B) (font : string)
      (face : FontFacePtr) (msgs : list message) :
  find_face B this font = Some (face, msgs) -> msgs <> [].
Proof.
  unfold find_face.
  destruct (find_face_fontconfig B this (lookup_of font)) as [[[f|] m]|];
    intros H; inversion H; discriminate.
Qed.

(** What eviction can do to the keys: nothing new appears. *)
Lemma check_cleanup_keys (c c' : cache_t) (k : string) :
  check_cleanup MAX c = Some c' -> In k (keys c') -> In k (keys c).
Proof.
  unfold check_cleanup. destruct (length c <? MAX)%nat.
  - intros H; inversion H; auto.
  - destruct c as [|first rest]; [discriminate|].
    destruct (scan_oldest_first first rest) as (m1 & z & m2 & Heq & Hpos & _).
    rewrite Hpos, Heq, erase_at. intros H; inversion H; subst c'.
    unfold keys. rewrite !map_app. simpl. intros Hin.
    apply in_app_or in Hin. apply in_or_app. simpl. tauto.
Qed.

Lemma assign_keys (key k : string) (e : cache_entry_t) (c : cache_t) :
  In k (keys (assign key e c)) -> k = key \/ In k (keys c).
Proof.
  unfold assign. destruct (find key c).
  - rewrite keys_replace. tauto.
  - rewrite keys_insert_new. tauto.
Qed.

(** C5: when the key misses the cache and the resolver finds no face,
    [get_font] returns the null face and the object is exactly what it
    was: same entries, same timestamps. *)
Theorem get_font_unresolved_leaves_cache
        (this : FontCache B) (font : string) (now : time_t) (msgs : list message) :
  find font (cache this) = None ->
  find_face B this font = Some (None, msgs) ->
  get_font B MAX this font now = Some (None, this, msgs).
Proof. apply get_font_miss_none. Qed.

(** C10: when the query string itself is a key of the cache, [get_font]
    returns the stored face; the resolver is not called (nothing is
    traced, whereas the resolver always traces) and there is no eviction
    check (the keys are the same, in the same order, even in a full
    cache); every other entry is as before; the entry of the query keeps
    its face and has the current time as timestamp. *)
Theorem get_font_hit_frame
        (this : FontCache B) (font : string) (now : time_t)
        (face : FontFacePtr) (t : time_t) :
  find font (cache this) = Some (face, t) ->
  exists this',
    get_font B MAX this font now = Some (face, this', [])
    /\ this' = set_cache this (replace font (face, now) (cache this))
    /\ (forall r, find_face B this font = Some r -> snd r <> [])
    /\ keys (cache this') = keys (cache this)
    /\ length (cache this') = length (cache this)
    /\ find font (cache this') = Some (face, now)
    /\ (forall k, k <> font -> find k (cache this') = find k (cache this)).
Proof.
  intros Hhit. eexists. split; [now apply get_font_hit with t|].
  split; [reflexivity|]. split.
  - intros [f m] Hr. simpl. now apply find_face_traces in Hr.
  - simpl. repeat split.
    + apply keys_replace.
    + rewrite <- !(length_map fst). change (map fst) with keys.
      now rewrite keys_replace.
    + now apply find_replace_same with (face, t).
    + intros k Hk. now apply find_replace_other.
Qed.

(** The amended C1: [get_font] finds and stores under the query string as
    it was given; trimming and the default only shape the string handed to
    the resolver.  So a padded query and its trimmed form are resolved
    through the same string, and an empty or blank query through the
    default one, but a successful call leaves its entry under the query as
    written, and creates no entry under any other key. *)
Theorem get_font_key_is_the_query
        (this : FontCache B) (font : string) (now : time_t)
        (f : FontFace) (this' : FontCache B) (msgs : list message) :
  get_font B MAX this font now = Some (Some f, this', msgs) ->
  find font (cache this') = Some (Some f, now)
  /\ (forall k, In k (keys (cache this')) -> k = font \/ In k (keys (cache this)))
  /\ (find font (cache this) = None ->
      exists m, find_face_fontconfig B this (lookup_of font) = Some (Some f, m))
  /\ (forall q, lookup_of (String.append "  " (String.append q "  ")) = lookup_of (Str.trim q))
  /\ (forall q, lookup_of (Str.trim q) = lookup_of q)
  /\ (forall q, Str.trim q = EmptyString -> lookup_of q = DEFAULT_FONT).
Proof.
  intros Hget. split; [|split; [|split]].
  - unfold get_font in Hget.
    destruct (find font (cache this)) as [[face t]|].
    + inversion Hget; subst. simpl. apply find_assign_same.
    + destruct (find_face B this font) as [[[g|] m]|]; try discriminate.
      destruct (check_cleanup MAX (cache this)) as [c|]; [|discriminate].
      inversion Hget; subst. simpl. apply find_assign_same.
  - intros k Hk. unfold get_font in Hget.
    destruct (find font (cache this)) as [[face t]|].
    + inversion Hget; subst. simpl in Hk. now apply assign_keys in Hk.
    + destruct (find_face B this font) as [[[g|] m]|]; try discriminate.
      destruct (check_cleanup MAX (cache this)) as [c|] eqn:Hc; [|discriminate].
      inversion Hget; subst. simpl in Hk. apply assign_keys in Hk.
      destruct Hk as [Hk|Hk]; [now left | right].
      now apply check_cleanup_keys with c.
  - intros Hmiss. unfold get_font in Hget. rewrite Hmiss in Hget.
    unfold find_face in Hget.
    destruct (find_face_fontconfig B this (lookup_of font)) as [[[g|] m]|];
      try discriminate.
    destruct (check_cleanup MAX (cache this)); [|discriminate].
    inversion Hget; subst. now exists m.
  - repeat split.
    + intros q. unfold lookup_of.
      now rewrite StrFacts.trim_padded, StrFacts.trim_idem.
    + intros q. unfold lookup_of. now rewrite StrFacts.trim_idem.
    + intros q Hq. unfold lookup_of. now rewrite Hq.
Qed.

End Store.

Section Eviction.

Variable B : Backend.
Variable MAX : nat.

Import Cache CacheFacts.

Lemma find_In (key : string) (e : cache_entry_t) (c : cache_t) :
  find key c = Some e -> In (key, e) c.
Proof.
  induction c as [|[k e'] c IH]; simpl; [discriminate|].
  destruct (String.eqb_spec k key) as [->|Hne].
  - intros H; inversion H; now left.
  - intros H; right; now apply IH.
Qed.

Lemma resolves_set_cache (this : FontCache B) (c : cache_t) (q : string) :
  resolves B this q -> resolves B (set_cache this c) q.
Proof. intros H. exact H. Qed.

(** Resolving fresh keys while there is room: every key gets its entry,
    stamped with the time of its call, and nothing else changes. *)
Lemma get_fonts_fill (qs : list (string * time_t)) :
  forall this : FontCache B,
    NoDup (map fst qs) ->
    NoDup (keys (cache this)) ->
    (forall q, In q qs -> ~ In (fst q) (keys (cache this))) ->
    (forall q, In q qs -> resolves B this (fst q)) ->
    (length (cache this) + length qs <= MAX)%nat ->
    exists faces c,
      get_fonts B MAX this qs = Some (faces, set_cache this c)
      /\ length c = (length (cache this) + length qs)%nat
      /\ NoDup (keys c)
      /\ (forall k, In k (keys c) -> In k (keys (cache this)) \/ In k (map fst qs))
      /\ (forall q, In q qs -> exists f, find (fst q) c = Some (f, snd q))
      /\ (forall k, ~ In k (map fst qs) -> find k c = find k (cache this)).
Proof.
  induction qs as [|[font now] qs IH]; intros this Hnd Hc Hfresh Hres Hroom.
  - exists [], (cache this). simpl. destruct this; simpl.
    repeat split; auto; try lia; try (now intros ? []).
  - simpl in Hnd. inversion Hnd as [|? ? Hfont Hnd']; subst.
    assert (Hmiss : find font (cache this) = None).
    { apply find_keys. apply (Hfresh (font, now)). now left. }
    destruct (Hres (font, now)) as (f & msgs & Hf); [now left|]. simpl in Hf.
    simpl in Hroom.
    pose (c1 := assign font (Some f, now) (cache this)).
    assert (Hstep : get_font B MAX this font now = Some (Some f, set_cache this c1, msgs)).
    { apply get_font_miss_some; try assumption. apply check_cleanup_under. lia. }
    assert (Hlen1 : length c1 = S (length (cache this)))
      by now apply length_assign_new.
    destruct (IH (set_cache this c1)) as (faces & c & Hrun & Hlen & Hndc & Hkeys & Hin & Hout).
    + assumption.
    + simpl. now apply NoDup_assign.
    + intros q Hq Hk. simpl in Hk. apply assign_keys in Hk. destruct Hk as [Hk|Hk].
      * apply Hfont. rewrite <- Hk. now apply in_map.
      * apply (Hfresh q); [now right | assumption].
    + intros q Hq. apply resolves_set_cache. apply Hres. now right.
    + simpl. lia.
    + exists (Some f :: faces), c. simpl. rewrite Hstep.
      simpl in Hrun. rewrite Hrun. repeat split.
      * simpl in Hlen. lia.
      * assumption.
      * intros k Hk. apply Hkeys in Hk. simpl in Hk. destruct Hk as [Hk|Hk].
        -- apply assign_keys in Hk. intuition congruence.
        -- tauto.
      * intros q [<-|Hq].
        -- exists (Some f). simpl. rewrite Hout by assumption. simpl.
           apply find_assign_same.
        -- now apply Hin.
      * intros k Hk. rewrite Hout by tauto. simpl.
        apply find_assign_other. intuition congruence.
Qed.

Lemma get_fonts_snoc (this : FontCache B) (qs : list (string * time_t))
      (font : string) (now : time_t) :
  get_fonts B MAX this (qs ++ [(font, now)]) =
  match get_fonts B MAX this qs with
  | None => None
  | Some (faces, this1) =>
      match get_font B MAX this1 font now with
      | None => None
      | Some (face, this2, _) => Some (faces ++ [face], this2)
      end
  end.
Proof.
  revert this. induction qs as [|[k t] qs IH]; intros this; simpl.
  - destruct (get_font B MAX this font now) as [[[face this2] m]|]; reflexivity.
  - destruct (get_font B MAX this k t) as [[[face this1] m]|]; [|reflexivity].
    rewrite IH. destruct (get_fonts B MAX this1 qs) as [[faces this2]|]; [|reflexivity].
    destruct (get_font B MAX this2 font now) as [[[face' this3] m']|]; reflexivity.
Qed.

(** C2: [check_cleanup] leaves a cache below the maximum alone.  At or
    above the maximum it removes exactly one entry: the first one, in
    iteration order, among those whose timestamp is the smallest (every
    entry before it is strictly younger, every entry after it is at least
    as young).  Hence resolving MAX+1 distinct keys from an empty cache
    leaves MAX entries: one of the first MAX keys, with the smallest
    timestamp among them, is gone, and every other key has its entry,
    stamped with the time of its call. *)
Theorem check_cleanup_evicts_oldest :
  (0 < MAX)%nat ->
  (forall c, (length c < MAX)%nat -> check_cleanup MAX c = Some c)
  /\ (forall c, (MAX <= length c)%nat ->
        exists l1 x l2,
          c = l1 ++ x :: l2
          /\ check_cleanup MAX c = Some (l1 ++ l2)
          /\ (forall y, In y l1 -> stamp x < stamp y)
          /\ (forall y, In y l2 -> stamp x <= stamp y))
  /\ (forall (this : FontCache B) (qs : list (string * time_t)) (last : string * time_t),
        cache this = [] ->
        length qs = MAX ->
        NoDup (map fst (qs ++ [last])) ->
        (forall q, In q (qs ++ [last]) -> resolves B this (fst q)) ->
        exists faces this' old,
          get_fonts B MAX this (qs ++ [last]) = Some (faces, this')
          /\ length (cache this') = MAX
          /\ In old qs
          /\ (forall q, In q qs -> snd old <= snd q)
          /\ find (fst old) (cache this') = None
          /\ (forall q, In q (qs ++ [last]) -> fst q <> fst old ->
                exists f, find (fst q) (cache this') = Some (f, snd q))).
Proof.
  intros Hpos. split; [exact (check_cleanup_under MAX)|]. split.
  - intros c Hfull. apply check_cleanup_full; [|assumption].
    destruct c; [simpl in Hfull; lia | discriminate].
  - intros this qs [knew now] Hempty Hlen Hnd Hres.
    rewrite map_app in Hnd. simpl in Hnd.
    apply NoDup_remove in Hnd. rewrite app_nil_r in Hnd. destruct Hnd as [Hnd Hnew].
    destruct (get_fonts_fill qs this) as (faces & c & Hrun & Hlenc & Hndc & Hkeys & Hin & _).
    + assumption.
    + rewrite Hempty. constructor.
    + intros q _. rewrite Hempty. simpl. tauto.
    + intros q Hq. apply Hres. apply in_or_app. now left.
    + rewrite Hempty. simpl. lia.
    + rewrite Hempty in Hlenc, Hkeys. simpl in Hlenc, Hkeys.
      assert (Hkeys' : forall k, In k (keys c) -> In k (map fst qs)).
      { intros k Hk. destruct (Hkeys k Hk) as [[]|]; assumption. }
      assert (Hmiss : find knew c = None).
      { apply find_keys. intros Hk. apply Hnew. now apply Hkeys'. }
      destruct (Hres (knew, now)) as (f & msgs & Hf); [apply in_or_app; right; now left|].
      simpl in Hf.
      destruct (check_cleanup_full MAX c) as (l1 & x & l2 & Hc & Hclean & Hl1 & Hl2).
      { destruct c; [simpl in Hlenc; lia | discriminate]. }
      { lia. }
      assert (Hstep : get_font B MAX (set_cache this c) knew now =
                      Some (Some f, set_cache this (assign knew (Some f, now) (l1 ++ l2)), msgs)).
      { apply (get_font_miss_some B MAX (set_cache this c)); assumption. }
      subst c. destruct x as [kx ex].
      assert (Hkx : In kx (map fst qs)).
      { apply Hkeys'. unfold keys. rewrite map_app. apply in_or_app.
        right. now left. }
      apply in_map_iff in Hkx. destruct Hkx as (old & Hold & Hinold).
      pose proof (find_present l1 kx ex l2 Hndc) as Hx.
      destruct (Hin old Hinold) as (fo & Hfo). rewrite Hold, Hx in Hfo.
      assert (Hstamp : stamp (kx, ex) = snd old) by (inversion Hfo; reflexivity).
      clear Hfo.
      assert (Hkx_new : kx <> knew).
      { intros ->. apply Hnew. rewrite <- Hold. now apply in_map. }
      exists (faces ++ [Some f]), (set_cache this (assign knew (Some f, now) (l1 ++ l2))), old.
      rewrite get_fonts_snoc, Hrun, Hstep. split; [reflexivity|]. simpl.
      assert (Hmiss' : find knew (l1 ++ l2) = None).
      { rewrite <- Hmiss. apply find_not_erased. simpl. congruence. }
      repeat split.
      * rewrite length_assign_new by assumption.
        rewrite length_app in Hlenc |- *. simpl in Hlenc. lia.
      * assumption.
      * intros q Hq. destruct (Hin q Hq) as (fq & Hfq).
        apply find_In in Hfq.
        apply in_app_or in Hfq. rewrite <- Hstamp. destruct Hfq as [Hq1|[Hq1|Hq1]].
        -- specialize (Hl1 _ Hq1). stamps.
        -- rewrite Hq1. stamps.
        -- specialize (Hl2 _ Hq1). stamps.
      * rewrite Hold. rewrite find_assign_other by assumption.
        apply (find_erased l1 (kx, ex) l2 Hndc).
      * intros q Hq Hne. apply in_app_or in Hq. destruct Hq as [Hq|[<-|[]]].
        -- destruct (Hin q Hq) as (fq & Hfq). exists fq.
           rewrite find_assign_other.
           ++ rewrite <- Hfq. apply find_not_erased. simpl. congruence.
           ++ intros Heq. apply Hnew. rewrite <- Heq. now apply in_map.
        -- exists (Some f). simpl. apply find_assign_same.
Qed.

(** The amended C3: a hit rewrites the timestamp of its entry to the
    current time.  In a full cache with one entry per key where [k1] holds the smallest
    timestamp [t1] and [k2] the next one [t2], every other entry being
    younger than [t2]: once [k1] has been looked up again at a time later
    than [t2], the insertion of a new key evicts [k2], and [k1] stays,
    with the time of its second lookup. *)
Theorem refreshed_entry_survives
        (this : FontCache B) (k1 k2 knew : string) (f1 f2 : FontFacePtr)
        (t1 t2 now1 now2 : time_t) :
  NoDup (keys (cache this)) ->
  (MAX <= length (cache this))%nat ->
  find k1 (cache this) = Some (f1, t1) ->
  find k2 (cache this) = Some (f2, t2) ->
  t1 < t2 ->
  (forall k e, find k (cache this) = Some e -> k <> k1 -> k <> k2 -> t2 < snd e) ->
  t2 < now1 ->
  find knew (cache this) = None ->
  resolves B this knew ->
  (forall font face t now,
      find font (cache this) = Some (face, t) ->
      exists this',
        get_font B MAX this font now = Some (face, this', [])
        /\ find font (cache this') = Some (face, now))
  /\ exists this1 this2 f msgs,
      get_font B MAX this k1 now1 = Some (f1, this1, [])
      /\ find k1 (cache this1) = Some (f1, now1)
      /\ get_font B MAX this1 knew now2 = Some (Some f, this2, msgs)
      /\ find k2 (cache this2) = None
      /\ find k1 (cache this2) = Some (f1, now1)
      /\ find knew (cache this2) = Some (Some f, now2)
      /\ length (cache this2) = length (cache this)
      /\ (forall k, k <> k1 -> k <> k2 -> k <> knew ->
            find k (cache this2) = find k (cache this)).
Proof.
  intros Hnd Hfull Hk1 Hk2 Hlt Hyoung Hnow Hnew (f & msgs & Hf).
  split.
  { intros font face t now Hhit. eexists. split.
    - now apply get_font_hit with t.
    - simpl. now apply find_replace_same with (face, t). }
  assert (Hk12 : k1 <> k2) by (intros ->; rewrite Hk1 in Hk2; inversion Hk2; lia).
  assert (Hk1new : k1 <> knew) by (intros ->; congruence).
  assert (Hk2new : k2 <> knew) by (intros ->; congruence).
  remember (replace k1 (f1, now1) (cache this)) as c1 eqn:Ec1.
  assert (Hstep1 : get_font B MAX this k1 now1 = Some (f1, set_cache this c1, []))
    by (rewrite Ec1; now apply get_font_hit with t1).
  assert (Hc1k1 : find k1 c1 = Some (f1, now1))
    by (rewrite Ec1; now apply find_replace_same with (f1, t1)).
  assert (Hc1other : forall k, k <> k1 -> find k c1 = find k (cache this))
    by (intros k Hk; rewrite Ec1; now apply find_replace_other).
  assert (Hc1nd : NoDup (keys c1)) by (rewrite Ec1, keys_replace; assumption).
  assert (Hc1len : length c1 = length (cache this)).
  { rewrite <- !(length_map fst). change (map fst) with keys.
    now rewrite Ec1, keys_replace. }
  clear Ec1.
  destruct (check_cleanup_full MAX c1) as (l1 & x & l2 & Hc1 & Hclean & Hl1 & Hl2).
  { intros ->. discriminate. }
  { lia. }
  assert (Hstep2 : get_font B MAX (set_cache this c1) knew now2 =
                   Some (Some f, set_cache this (assign knew (Some f, now2) (l1 ++ l2)), msgs)).
  { apply (get_font_miss_some B MAX (set_cache this c1)); try assumption.
    simpl. rewrite Hc1other by congruence. assumption. }
  subst c1. destruct x as [kx ex].
  pose proof (find_present l1 kx ex l2 Hc1nd) as Hx.
  assert (Hmin : stamp (kx, ex) <= t2).
  { assert (Hin2 : In (k2, (f2, t2)) (l1 ++ (kx, ex) :: l2)).
    { apply find_In. rewrite Hc1other by congruence. assumption. }
    apply in_app_or in Hin2. destruct Hin2 as [H|[H|H]].
    - specialize (Hl1 _ H). stamps.
    - rewrite H. stamps.
    - specialize (Hl2 _ H). stamps. }
  assert (Hkx : kx = k2).
  { destruct (string_dec kx k1) as [->|Hne1].
    - rewrite Hc1k1 in Hx. inversion Hx; subst ex. stamps.
    - destruct (string_dec kx k2) as [|Hne2]; [assumption|].
      rewrite Hc1other in Hx by assumption.
      specialize (Hyoung kx ex Hx Hne1 Hne2). stamps. }
  subst kx.
  exists (set_cache this (l1 ++ (k2, ex) :: l2)),
         (set_cache this (assign knew (Some f, now2) (l1 ++ l2))), f, msgs.
  split; [exact Hstep1|]. split; [exact Hc1k1|]. split; [exact Hstep2|].
  simpl. repeat split.
  - rewrite find_assign_other by assumption.
    exact (find_erased l1 (k2, ex) l2 Hc1nd).
  - rewrite find_assign_other by assumption.
    rewrite <- Hc1k1. apply find_not_erased. simpl. assumption.
  - apply find_assign_same.
  - rewrite length_assign_new.
    + rewrite <- Hc1len, !length_app. simpl. lia.
    + rewrite <- Hnew, <- (Hc1other knew) by congruence.
      apply find_not_erased. simpl. congruence.
  - intros k Hn1 Hn2 Hn3. rewrite find_assign_other by assumption.
    rewrite <- (Hc1other k) by assumption.
    apply find_not_erased. simpl. assumption.
Qed.

Lemma failed_init_state :
  is_init_ok B (fst (FontCache_new B)) = false ->
  library (fst (FontCache_new B)) = None /\ cache (fst (FontCache_new B)) = [].
Proof.
  unfold FontCache_new, is_init_ok.
  destruct (FcInitLoadConfig B); [|now split].
  destruct (FT_Init_FreeType B); simpl; [discriminate | now split].
Qed.

Lemma failed_init_iff :
  is_init_ok B (fst (FontCache_new B)) = false <->
  FcInitLoadConfig B = None \/ FT_Init_FreeType B = None.
Proof.
  unfold FontCache_new, is_init_ok.
  destruct (FcInitLoadConfig B); [|simpl; tauto].
  destruct (FT_Init_FreeType B); simpl; intuition discriminate.
Qed.

(** Without a library handle no face can be loaded, whatever fontconfig
    answers, provided FreeType refuses to work on a null handle. *)
Lemma load_face_no_library (this : FontCache B) (font : string) :
  (forall file_value font_index, FT_New_Face B None file_value font_index = None) ->
  library this = None ->
  exists msgs, load_face B this font = (None, msgs).
Proof.
  intros Hnull Hlib. unfold load_face.
  destruct (FcNameParse B font); [|eexists; reflexivity].
  destruct (FcPatternGetString B _ FC_FILE 0); [|eexists; reflexivity].
  destruct (FcPatternGetInteger B _ FC_INDEX 0); [|eexists; reflexivity].
  destruct (FcPatternGetString B _ FC_FONT_FEATURES 0);
    rewrite Hlib, Hnull; eexists; reflexivity.
Qed.

Lemma find_face_no_library (this : FontCache B) (font : string) :
  (forall file_value font_index, FT_New_Face B None file_value font_index = None) ->
  library this = None ->
  exists msgs, find_face B this font = Some (None, msgs).
Proof.
  intros Hnull Hlib. unfold find_face, find_face_fontconfig.
  destruct (load_face_no_library this (lookup_of font) Hnull Hlib) as (msgs & ->).
  eexists. reflexivity.
Qed.

(** C4: the constructor leaves [is_init_ok] false exactly when fontconfig
    or FreeType failed to initialise.  On such an object, and as long as
    FreeType refuses to load a face through a null library handle, every
    call of [get_font], for every query, returns the null face and leaves
    the object as it is; so does every later call. *)
Theorem failed_init_not_found :
  (forall file_value font_index, FT_New_Face B None file_value font_index = None) ->
  let this := fst (FontCache_new B) in
  (is_init_ok B this = false <->
   FcInitLoadConfig B = None \/ FT_Init_FreeType B = None)
  /\ (is_init_ok B this = false ->
      (forall font now, exists msgs,
            get_font B MAX this font now = Some (None, this, msgs))
      /\ (forall qs, get_fonts B MAX this qs = Some (map (fun _ => None) qs, this))).
Proof.
  intros Hnull this. split; [apply failed_init_iff|].
  intros Hfail. destruct (failed_init_state Hfail) as [Hlib Hcache].
  fold this in Hlib, Hcache.
  assert (Hcall : forall font now, exists msgs,
               get_font B MAX this font now = Some (None, this, msgs)).
  { intros font now.
    destruct (find_face_no_library this font Hnull Hlib) as (msgs & Hres).
    exists msgs. apply get_font_miss_none; [|assumption].
    rewrite Hcache. reflexivity. }
  split; [exact Hcall|].
  induction qs as [|[font now] qs IH]; simpl; [reflexivity|].
  destruct (Hcall font now) as (msgs & ->). now rewrite IH.
Qed.

End Eviction.

(** ** Instances on the small installation *)

(** C7 as the specification words it does not hold: on a face whose table
    holds the variation selector table (0,5) before (0,6), the first entry
    matching (Apple-Unicode, any) cannot be activated, and yet the try step
    reports success: it went on and activated the next matching entry. *)
Lemma try_charmap_goes_past_first_match :
  let w := {| w_face := Demo.variations; w_log := [] |} in
  first_match (charmaps Demo.variations) TT_PLATFORM_APPLE_UNICODE (-1)
  = Some Demo.variation_cm
  /\ try_first_match Demo.B Demo.variations TT_PLATFORM_APPLE_UNICODE (-1) = false
  /\ option_map fst (try_charmap Demo.B TT_PLATFORM_APPLE_UNICODE (-1) w) = Some true
  /\ option_map (fun r => charmap (w_face (snd r)))
                (try_charmap Demo.B TT_PLATFORM_APPLE_UNICODE (-1) w)
     = Some (Some Demo.last_resort_cm)
  /\ option_map fst (try_charmap Demo.B TT_PLATFORM_APPLE_UNICODE (-1) w)
     <> Some (try_first_match Demo.B (w_face w) TT_PLATFORM_APPLE_UNICODE (-1)).
Proof.
  repeat split. vm_compute. discriminate.
Qed.

(** C1 as the specification words it does not hold: a padded query is
    stored under its padded spelling, not under the trimmed one, so that
    the padded and the trimmed query occupy two entries; and the empty
    query is stored under the empty key, not under the default query. *)
Lemma get_font_key_not_normalised :
  (exists f this' msgs,
      get_font Demo.B 3 Demo.fresh "  A  " 1 = Some (Some f, this', msgs)
      /\ Cache.find (Str.trim "  A  ") (cache this') = None
      /\ Cache.keys (cache this') = ["  A  "])
  /\ (exists faces this',
         get_fonts Demo.B 3 Demo.fresh [("  A  ", 1); ("A", 2)] = Some (faces, this')
         /\ Cache.keys (cache this') = ["  A  "; "A"])
  /\ (exists f this' msgs,
         get_font Demo.B 3 Demo.fresh "" 1 = Some (Some f, this', msgs)
         /\ Cache.find DEFAULT_FONT (cache this') = None
         /\ Cache.keys (cache this') = [""]).
Proof.
  split; [|split].
  - do 3 eexists. split; [reflexivity|]. split; reflexivity.
  - do 2 eexists. split; reflexivity.
  - do 3 eexists. split; [reflexivity|]. split; reflexivity.
Qed.

(** A padded query on the fresh object. *)
Lemma get_font_key_is_the_query_witness :
  exists msgs,
    get_font Demo.B 3 Demo.fresh "  A  " 1
    = Some (Demo.loaded "A",
            set_cache Demo.fresh [("  A  ", (Demo.loaded "A", 1))], msgs)
    /\ Cache.find "  A  " [("  A  ", (Demo.loaded "A", 1))] = Some (Demo.loaded "A", 1)
    /\ lookup_of "  A  " = lookup_of (Str.trim "A").
Proof.
  eexists. split; [cbv; reflexivity|].
  destruct (get_font_key_is_the_query Demo.B 3 Demo.fresh "  A  " 1 _ _ _ eq_refl)
    as (Hkey & _ & _ & Hpad & _).
  split; [exact Hkey | exact (Hpad "A")].
Defined.

(** Four keys through a cache of three: the key of time 1 goes. *)
Lemma check_cleanup_evicts_oldest_witness :
  (0 < 3)%nat
  /\ exists faces this' old,
      get_fonts Demo.B 3 Demo.fresh ([("D", 1); ("C", 2); ("B", 3)] ++ [("A", 4)])
      = Some (faces, this')
      /\ length (cache this') = 3%nat
      /\ In old [("D", 1); ("C", 2); ("B", 3)]
      /\ (forall q, In q [("D", 1); ("C", 2); ("B", 3)] -> snd old <= snd q)
      /\ Cache.find (fst old) (cache this') = None
      /\ (forall q, In q ([("D", 1); ("C", 2); ("B", 3)] ++ [("A", 4)]) ->
            fst q <> fst old ->
            exists f, Cache.find (fst q) (cache this') = Some (f, snd q)).
Proof.
  split; [lia|].
  apply (check_cleanup_evicts_oldest Demo.B 3); try reflexivity; try lia.
  - repeat constructor; simpl; intuition discriminate.
  - intros q Hq. simpl in Hq.
    destruct Hq as [<-|[<-|[<-|[<-|[]]]]]; do 2 eexists; reflexivity.
Defined.

(** C3 as the specification words it does not hold: the clock counts
    whole seconds, so a lookup can read the very time another entry was
    stamped with.  In a cache of two holding A:1 and B:2, A is looked up
    again while the clock still reads 2; the insertion of C then meets two
    entries stamped 2, keeps the first one it compares as the oldest, and
    evicts A, the entry that was just looked up, while B stays. *)
Lemma refreshed_entry_evicted_on_tie :
  let this := set_cache Demo.fresh
                [("A", (Demo.loaded "A", 1)); ("B", (Demo.loaded "B", 2))] in
  exists this1 this2 msgs,
    get_font Demo.B 2 this "A" 2 = Some (Demo.loaded "A", this1, [])
    /\ Cache.find "A" (cache this1) = Some (Demo.loaded "A", 2)
    /\ Cache.find "B" (cache this1) = Some (Demo.loaded "B", 2)
    /\ get_font Demo.B 2 this1 "C" 3 = Some (Demo.loaded "C", this2, msgs)
    /\ Cache.find "A" (cache this2) = None
    /\ Cache.find "B" (cache this2) = Some (Demo.loaded "B", 2)
    /\ Cache.keys (cache this2) = ["B"; "C"].
Proof.
  do 3 eexists. split; [cbv; reflexivity|].
  split; [reflexivity|]. split; [reflexivity|].
  split; [cbv; reflexivity|].
  repeat split.
Qed.

(** The full cache A:1, B:2, C:3, with A looked up again at time 5 before
    D arrives: B goes, A stays. *)
Lemma refreshed_entry_survives_witness :
  exists this1 this2 f msgs,
    get_font Demo.B 3 Demo.warm "A" 5 = Some (Demo.loaded "A", this1, [])
    /\ Cache.find "A" (cache this1) = Some (Demo.loaded "A", 5)
    /\ get_font Demo.B 3 this1 "D" 6 = Some (Some f, this2, msgs)
    /\ Cache.find "B" (cache this2) = None
    /\ Cache.find "A" (cache this2) = Some (Demo.loaded "A", 5)
    /\ Cache.find "D" (cache this2) = Some (Some f, 6)
    /\ length (cache this2) = length (cache Demo.warm)
    /\ (forall k, k <> "A" -> k <> "B" -> k <> "D" ->
          Cache.find k (cache this2) = Cache.find k (cache Demo.warm)).
Proof.
  apply (refreshed_entry_survives Demo.B 3 Demo.warm "A" "B" "D"
           (Demo.loaded "A") (Demo.loaded "B") 1 2 5 6); try reflexivity; try lia.
  - repeat constructor; simpl; intuition discriminate.
  - intros k e Hk Hn1 Hn2. cbn [Demo.warm set_cache cache Cache.find] in Hk.
    destruct (String.eqb_spec "A" k); [congruence|].
    destruct (String.eqb_spec "B" k); [congruence|].
    destruct (String.eqb_spec "C" k); [|discriminate].
    inversion Hk. simpl. lia.
  - do 2 eexists. reflexivity.
Defined.

(** FreeType fails to initialise: three calls, three null faces. *)
Lemma failed_init_not_found_witness :
  (forall file_value font_index,
      FT_New_Face Demo.broken None file_value font_index = None)
  /\ is_init_ok Demo.broken (fst (FontCache_new Demo.broken)) = false
  /\ get_fonts Demo.broken 3 (fst (FontCache_new Demo.broken))
               [("A", 1); ("", 2); ("A", 3)]
     = Some ([None; None; None], fst (FontCache_new Demo.broken)).
Proof.
  split; [reflexivity|]. split; [reflexivity|].
  destruct (failed_init_not_found Demo.broken 3 (fun _ _ => eq_refl)) as [_ H].
  destruct (H eq_refl) as [_ Hall].
  exact (Hall [("A", 1); ("", 2); ("A", 3)]).
Defined.

(** A family that is not installed. *)
Lemma get_font_unresolved_leaves_cache_witness :
  Cache.find "NoSuchFont" (cache Demo.warm) = None
  /\ exists msgs,
      find_face Demo.B Demo.warm "NoSuchFont" = Some (None, msgs)
      /\ get_font Demo.B 3 Demo.warm "NoSuchFont" 7 = Some (None, Demo.warm, msgs).
Proof.
  split; [reflexivity|]. eexists. split; [reflexivity|].
  apply get_font_unresolved_leaves_cache; reflexivity.
Defined.

(** A face with a (Macintosh, Roman) charmap only stops at the fifth pair;
    a face without any charmap runs through the list and is warned about. *)
Lemma charmap_fallback_order_witness :
  (load_face Demo.B Demo.fresh "OldMac" = (Some (Demo.old_mac, [EmptyString]), [])
   /\ ft_select_charmap Demo.B Demo.old_mac ft_encoding_unicode = None
   /\ find_face_fontconfig Demo.B Demo.fresh "OldMac"
      = Some (Some {| face_ := set_active Demo.old_mac Demo.mac_roman_cm;
                      features_ := [EmptyString] |},
              ([] ++ charmap_listing 0 (charmaps Demo.old_mac))
              ++ selected_messages Demo.B Demo.old_mac Demo.mac_roman_cm))
  /\ (load_face Demo.B Demo.fresh "Bare" = (Some (Demo.bare, [EmptyString]), [])
      /\ find_face_fontconfig Demo.B Demo.fresh "Bare"
         = Some (Some {| face_ := Demo.bare; features_ := [EmptyString] |},
                 ([] ++ charmap_listing 0 (charmaps Demo.bare))
                 ++ [no_charmap_warning Demo.bare])).
Proof.
  split.
  - split; [reflexivity|]. split; [reflexivity|].
    destruct (charmap_fallback_order Demo.B Demo.fresh "OldMac" Demo.old_mac
                [EmptyString] [] eq_refl eq_refl) as (_ & Hfirst & _).
    apply (Hfirst [ (TT_PLATFORM_MICROSOFT, TT_MS_ID_UNICODE_CS);
                    (TT_PLATFORM_ISO, TT_ISO_ID_10646);
                    (TT_PLATFORM_APPLE_UNICODE, -1);
                    (TT_PLATFORM_MICROSOFT, TT_MS_ID_SYMBOL_CS) ]
                  TT_PLATFORM_MACINTOSH TT_MAC_ID_ROMAN
                  [ (TT_PLATFORM_ISO, TT_ISO_ID_8859_1);
                    (TT_PLATFORM_ISO, TT_ISO_ID_7BIT_ASCII) ]).
    + reflexivity.
    + intros q Hq. simpl in Hq.
      destruct Hq as [<-|[<-|[<-|[<-|[]]]]]; reflexivity.
    + reflexivity.
  - split; [reflexivity|].
    destruct (charmap_fallback_order Demo.B Demo.fresh "Bare" Demo.bare
                [EmptyString] [] eq_refl eq_refl) as (_ & _ & Hnone).
    apply Hnone. intros q _. reflexivity.
Defined.

(** Looking up B again in the full cache. *)
Lemma get_font_hit_frame_witness :
  Cache.find "B" (cache Demo.warm) = Some (Demo.loaded "B", 2)
  /\ exists this',
      get_font Demo.B 3 Demo.warm "B" 9 = Some (Demo.loaded "B", this', [])
      /\ this' = set_cache Demo.warm
                   (Cache.replace "B" (Demo.loaded "B", 9) (cache Demo.warm))
      /\ (forall r, find_face Demo.B Demo.warm "B" = Some r -> snd r <> [])
      /\ Cache.keys (cache this') = Cache.keys (cache Demo.warm)
      /\ length (cache this') = length (cache Demo.warm)
      /\ Cache.find "B" (cache this') = Some (Demo.loaded "B", 9)
      /\ (forall k, k <> "B" -> Cache.find k (cache this') = Cache.find k (cache Demo.warm)).
Proof.
  split; [reflexivity|].
  apply (get_font_hit_frame Demo.B 3 Demo.warm "B" 9 (Demo.loaded "B") 2).
  reflexivity.
Defined.

(* ================================================================== *)
(** * Further properties                                               *)
(* ================================================================== *)

(** ** Orders on strings and on [FontInfo] *)

Module OrderFacts.

Lemma compare_refl (s : string) : String.compare s s = Eq.
Proof.
  induction s as [|c s IH]; simpl; [reflexivity|].
  unfold Ascii.compare. now rewrite N.compare_refl.
Qed.

Lemma ltb_irrefl (s : string) : (s <? s)%string = false.
Proof. unfold String.ltb. now rewrite compare_refl. Qed.

(** Two strings that are not smaller than each other are equal. *)
Lemma ltb_connex (s1 s2 : string) :
  (s1 <? s2)%string = false -> (s2 <? s1)%string = false -> s1 = s2.
Proof.
  unfold String.ltb. rewrite (String.compare_antisym s2 s1).
  destruct (String.compare s1 s2) eqn:E; simpl; try discriminate.
  intros _ _. now apply String.compare_eq_iff.
Qed.

End OrderFacts.

(** X1: [FontInfo::operator<] never puts a record before itself, and it
    relates every pair that the lexicographic order on (family, style,
    file) relates. *)
Theorem FontInfo_lt_contains_lex (a b : FontInfo) :
  FontInfo_lex_lt a b = true ->
  FontInfo_lt a b = true /\ FontInfo_lt a a = false /\ FontInfo_lt b b = false.
Proof.
  intros Hlex. split; [|split].
  - unfold FontInfo_lex_lt in Hlex. unfold FontInfo_lt, String.ltb in *.
    destruct (String.compare (family a) (family b)); try reflexivity; try discriminate.
    destruct (String.compare (style a) (style b)); try reflexivity; try discriminate.
    exact Hlex.
  - unfold FontInfo_lt. now rewrite !OrderFacts.ltb_irrefl.
  - unfold FontInfo_lt. now rewrite !OrderFacts.ltb_irrefl.
Qed.

(** Two installed variants of one family. *)
Lemma FontInfo_lt_contains_lex_witness :
  let a := mkFontInfo "Liberation Sans" "Bold" "LiberationSans-Bold.ttf" 1 in
  let b := mkFontInfo "Liberation Sans" "Regular" "LiberationSans-Regular.ttf" 2 in
  FontInfo_lex_lt a b = true
  /\ FontInfo_lt a b = true /\ FontInfo_lt a a = false /\ FontInfo_lt b b = false.
Proof.
  split; [reflexivity|].
  apply FontInfo_lt_contains_lex. reflexivity.
Defined.

(** X2: two records that [FontInfo::operator<] leaves unordered, in both
    directions, have the same family, the same style and the same file. *)
Theorem FontInfo_lt_unordered_equal (a b : FontInfo) :
  FontInfo_lt a b = false -> FontInfo_lt b a = false ->
  family a = family b /\ style a = style b /\ file a = file b.
Proof.
  unfold FontInfo_lt. intros Hab Hba.
  destruct (family a <? family b)%string eqn:F1; [discriminate|].
  destruct (family b <? family a)%string eqn:F2; [discriminate|].
  destruct (style a <? style b)%string eqn:S1; [discriminate|].
  destruct (style b <? style a)%string eqn:S2; [discriminate|].
  repeat split; now apply OrderFacts.ltb_connex.
Qed.

(** The same font file listed twice with different fingerprints. *)
Lemma FontInfo_lt_unordered_equal_witness :
  let a := mkFontInfo "DejaVu Sans" "Book" "DejaVuSans.ttf" 1 in
  let b := mkFontInfo "DejaVu Sans" "Book" "DejaVuSans.ttf" 2 in
  FontInfo_lt a b = false /\ FontInfo_lt b a = false
  /\ family a = family b /\ style a = style b /\ file a = file b.
Proof.
  split; [reflexivity|]. split; [reflexivity|].
  apply FontInfo_lt_unordered_equal; reflexivity.
Defined.

(** ** The fontconfig version number *)

(** X3: the version number that fontconfig builds from a major number and
    a minor and a revision below 100 is decoded back to these three
    numbers; so a runtime library of the version compiled against makes
    [get_fontconfig_version] pass the same triple twice. *)
Theorem fontconfig_version_round_trip
        (get_version_string : library_version_number -> library_version_number -> string)
        (v : library_version_number) :
  0 <= major v -> 0 <= minor v < 100 -> 0 <= micro v < 100 ->
  fontconfig_version_number v < 2 ^ 32 ->
  fontconfig_runtime_version (fontconfig_version_number v) = v
  /\ get_fontconfig_version get_version_string (major v) (minor v) (micro v)
                            (fontconfig_version_number v)
     = get_version_string v v.
Proof.
  intros Hmaj Hmin Hmic _.
  assert (E : fontconfig_runtime_version (fontconfig_version_number v) = v).
  { destruct v as [M m r]. unfold fontconfig_runtime_version, fontconfig_version_number.
    simpl in *.
    assert (H1 : (M * 10000 + m * 100 + r) / 10000 = M)
      by (symmetry; apply Z.div_unique with (r := m * 100 + r); lia).
    assert (H2 : (M * 10000 + m * 100 + r) / 100 = M * 100 + m)
      by (symmetry; apply Z.div_unique with (r := r); lia).
    assert (H3 : (M * 100 + m) mod 100 = m)
      by (symmetry; apply Z.mod_unique with (q := M); lia).
    assert (H4 : (M * 10000 + m * 100 + r) mod 100 = r)
      by (symmetry; apply Z.mod_unique with (q := M * 100 + m); lia).
    now rewrite H1, H2, H3, H4. }
  split; [exact E|].
  unfold get_fontconfig_version. rewrite E. now destruct v.
Qed.

(** fontconfig 2.13.1 reports 21301. *)
Lemma fontconfig_version_round_trip_witness :
  fontconfig_version_number (mkVersion 2 13 1) = 21301
  /\ fontconfig_runtime_version 21301 = mkVersion 2 13 1.
Proof.
  split; [reflexivity|].
  apply (fontconfig_version_round_trip (fun _ _ => EmptyString) (mkVersion 2 13 1));
    simpl; try lia.
  unfold fontconfig_version_number. simpl. lia.
Defined.

(** ** Trimming and splitting, as the resolver uses them *)

Module StrShape.
Import Str.

Lemma trim_left_shape (s : string) :
  exists pre, all_blank pre = true /\ s = String.append pre (trim_left s).
Proof.
  induction s as [|c s (pre & Hpre & IH)].
  - now exists EmptyString.
  - simpl. destruct (is_space c) eqn:Hc.
    + exists (String c pre). simpl. rewrite Hc, Hpre. split; [reflexivity | congruence].
    + now exists EmptyString.
Qed.

Lemma trim_right_shape (s : string) :
  exists post, all_blank post = true /\ s = String.append (trim_right s) post.
Proof.
  induction s as [|c s (post & Hpost & IH)].
  - now exists EmptyString.
  - simpl. destruct (trim_right s) as [|d r] eqn:E.
    + destruct (is_space c) eqn:Hc.
      * exists (String c post). simpl in *. rewrite Hc, Hpost. split; [reflexivity | congruence].
      * exists post. simpl in *. split; congruence.
    + exists post. simpl in *. split; congruence.
Qed.

Lemma starts_blank_trim_left (s : string) : starts_blank (trim_left s) = false.
Proof.
  induction s as [|c s IH]; simpl; [reflexivity|].
  destruct (is_space c) eqn:Hc; [exact IH | simpl; exact Hc].
Qed.

Lemma ends_blank_trim_right (s : string) : ends_blank (trim_right s) = false.
Proof.
  induction s as [|c s IH]; simpl; [reflexivity|].
  destruct (trim_right s) as [|d r] eqn:E.
  - destruct (is_space c) eqn:Hc; simpl; [reflexivity | exact Hc].
  - exact IH.
Qed.

Lemma ends_blank_trim_left (s : string) :
  ends_blank s = false -> ends_blank (trim_left s) = false.
Proof.
  induction s as [|c s IH]; [reflexivity|].
  intros H. simpl trim_left. destruct (is_space c) eqn:Hc; [|exact H].
  apply IH. destruct s; [simpl in H; congruence | exact H].
Qed.

Lemma trim_right_all_blank (s : string) :
  all_blank s = true -> trim_right s = EmptyString.
Proof.
  induction s as [|c s IH]; simpl; [reflexivity|].
  intros H. apply andb_prop in H. destruct H as [Hc Hs].
  now rewrite (IH Hs), Hc.
Qed.

Lemma all_blank_app (s1 s2 : string) :
  all_blank (String.append s1 s2) = all_blank s1 && all_blank s2.
Proof.
  induction s1 as [|c s1 IH]; simpl; [reflexivity|].
  now rewrite IH, andb_assoc.
Qed.

Lemma split_not_nil (sep : ascii) (s : string) : split sep s <> [].
Proof.
  destruct s as [|c s]; simpl; [discriminate|].
  destruct (Ascii.eqb c sep); [discriminate|].
  destruct (split sep s); discriminate.
Qed.

Lemma concat_cons (sep tok : string) (toks : list string) :
  toks <> [] ->
  String.concat sep (tok :: toks) = String.append tok (String.append sep (String.concat sep toks)).
Proof. destruct toks; [congruence | reflexivity]. Qed.

End StrShape.

(** X4: splitting a string at a separator character and joining the
    tokens with that character gives the string back; there is always at
    least one token (the empty string gives one empty token), and no
    token contains the separator. *)
Theorem split_join (sep : ascii) (s : string) :
  String.concat (String sep EmptyString) (Str.split sep s) = s
  /\ Str.split sep s <> []
  /\ Str.split sep EmptyString = [EmptyString]
  /\ Forall (fun tok => contains sep tok = false) (Str.split sep s).
Proof.
  split; [|split; [apply StrShape.split_not_nil | split; [reflexivity|]]].
  - induction s as [|c s IH]; [reflexivity|]. simpl Str.split.
    destruct (Ascii.eqb_spec c sep) as [->|Hne].
    + rewrite StrShape.concat_cons by apply StrShape.split_not_nil.
      simpl. now rewrite IH.
    + pose proof (StrShape.split_not_nil sep s) as Hnil.
      destruct (Str.split sep s) as [|tok toks]; [congruence|].
      destruct toks as [|tok' toks].
      * simpl in *. now rewrite IH.
      * rewrite StrShape.concat_cons by discriminate.
        rewrite StrShape.concat_cons in IH by discriminate.
        rewrite <- IH. reflexivity.
  - induction s as [|c s IH]; simpl.
    + now constructor.
    + destruct (Ascii.eqb c sep) eqn:E.
      * constructor; [reflexivity | exact IH].
      * destruct (Str.split sep s) as [|tok toks]; constructor; simpl; rewrite ?E; auto.
        -- now inversion IH.
        -- now inversion IH.
Qed.

Section Lookup.

Variable B : Backend.

(** X5: the string [find_face] hands to the resolver is never empty, has
    no blank at either end, and is a fixed point: handing it to
    [find_face] again selects the same string. *)
Theorem lookup_of_normal (font : string) :
  lookup_of font <> EmptyString
  /\ starts_blank (lookup_of font) = false
  /\ ends_blank (lookup_of font) = false
  /\ lookup_of (lookup_of font) = lookup_of font.
Proof.
  destruct (Str.trim font) as [|c r] eqn:E.
  - assert (Hl : lookup_of font = DEFAULT_FONT) by (unfold lookup_of; now rewrite E).
    rewrite Hl. repeat split; try reflexivity. discriminate.
  - assert (Hl : lookup_of font = Str.trim font) by (unfold lookup_of; now rewrite E).
    rewrite Hl. repeat split.
    + rewrite E. discriminate.
    + apply StrShape.starts_blank_trim_left.
    + apply StrShape.ends_blank_trim_left, StrShape.ends_blank_trim_right.
    + unfold lookup_of. rewrite StrFacts.trim_idem, E. reflexivity.
Qed.

(** X6: trimming only removes blanks at the two ends: the query is some
    blanks, the trimmed query, some blanks; and [find_face] falls back on
    the default query exactly when the query consists of blanks only. *)
Theorem lookup_of_shape (font : string) :
  (exists pre post,
      all_blank pre = true /\ all_blank post = true
      /\ font = String.append pre (String.append (Str.trim font) post))
  /\ (all_blank font = true <-> Str.trim font = EmptyString)
  /\ (all_blank font = true -> lookup_of font = DEFAULT_FONT)
  /\ (all_blank font = false -> lookup_of font = Str.trim font).
Proof.
  assert (Hshape : exists pre post,
             all_blank pre = true /\ all_blank post = true
             /\ font = String.append pre (String.append (Str.trim font) post)).
  { destruct (StrShape.trim_right_shape font) as (post & Hpost & Hr).
    destruct (StrShape.trim_left_shape (Str.trim_right font)) as (pre & Hpre & Hl).
    exists pre, post. repeat split; try assumption.
    unfold Str.trim. rewrite Hr at 1. rewrite Hl at 1.
    clear. induction pre as [|c pre IH]; simpl; [reflexivity | now rewrite IH]. }
  assert (Hiff : all_blank font = true <-> Str.trim font = EmptyString).
  { split.
    - intros H. unfold Str.trim. now rewrite StrShape.trim_right_all_blank.
    - intros H. destruct Hshape as (pre & post & Hpre & Hpost & Hfont).
      rewrite Hfont, H. simpl. now rewrite StrShape.all_blank_app, Hpre, Hpost. }
  split; [exact Hshape|]. split; [exact Hiff|]. split.
  - intros H. apply Hiff in H. unfold lookup_of. now rewrite H.
  - intros H. unfold lookup_of. destruct (Str.trim font) eqn:E; [|reflexivity].
    assert (all_blank font = true) by now apply Hiff. congruence.
Qed.

(** X7: [find_face] is blind to the blanks around a query: two queries
    with the same trimmed form get the same face, and the same messages
    after the first one (which quotes the query as given). *)
Theorem find_face_blank_insensitive (this : FontCache B) (q1 q2 : string) :
  Str.trim q1 = Str.trim q2 ->
  option_map fst (find_face B this q1) = option_map fst (find_face B this q2)
  /\ option_map (fun r => tl (snd r)) (find_face B this q1)
     = option_map (fun r => tl (snd r)) (find_face B this q2).
Proof.
  intros H. unfold find_face, lookup_of. rewrite H.
  destruct (find_face_fontconfig B this _) as [[[f|] m]|]; split; reflexivity.
Qed.

End Lookup.

(** A query typed with blanks around it. *)
Lemma find_face_blank_insensitive_witness :
  Str.trim "  Dingbats " = Str.trim "Dingbats"
  /\ option_map fst (find_face Demo.B Demo.fresh "  Dingbats ")
     = option_map fst (find_face Demo.B Demo.fresh "Dingbats").
Proof.
  split; [reflexivity|].
  apply (find_face_blank_insensitive Demo.B Demo.fresh "  Dingbats " "Dingbats").
  reflexivity.
Defined.

(** ** The resolver *)

Section Resolver.

Variable B : Backend.

(** The selector always ends, with the face and the log that [selection]
    describes. *)
Lemma select_charmap_run (w : world) :
  select_charmap B w =
  Some (tt, {| w_face := match fst (selection B (w_face w)) with
                         | Some cm => set_active (w_face w) cm
                         | None => w_face w
                         end;
               w_log := w_log w ++ snd (selection B (w_face w)) |}).
Proof.
  unfold selection.
  destruct (ft_select_charmap B (w_face w) ft_encoding_unicode) as [cm|] eqn:Hsel.
  - unfold select_charmap, bind, FT_Select_Charmap, bind, get_face, put_face, ret, emit.
    rewrite Hsel. reflexivity.
  - rewrite (select_charmap_steps B w Hsel).
    unfold fallback_steps, bind. rewrite try_in_order_run. fold (accepted_pair B (w_face w)).
    destruct (accepted_pair B (w_face w)) as [q|]; [|destruct w; reflexivity].
    rewrite try_charmap_run.
    destruct (first_accepted B (w_face w) (fst q) (snd q)); [reflexivity|].
    destruct w; reflexivity.
Qed.

Lemma find_face_fontconfig_run (this : FontCache B) (font : string) :
  find_face_fontconfig B this font =
  match load_face B this font with
  | (None, msgs) => Some (None, msgs)
  | (Some (ftFace, features), msgs) =>
      Some (Some {| face_ := match fst (selection B ftFace) with
                             | Some cm => set_active ftFace cm
                             | None => ftFace
                             end;
                    features_ := features |},
            (msgs ++ charmap_listing 0 (charmaps ftFace)) ++ snd (selection B ftFace))
  end.
Proof.
  unfold find_face_fontconfig.
  destruct (load_face B this font) as [[[ftFace features]|] msgs]; [|reflexivity].
  rewrite select_charmap_run. reflexivity.
Qed.

(** What a successful load has written so far is debug tracing only. *)
Lemma load_face_messages (this : FontCache B) (font : string) :
  existsb is_font_warning (snd (load_face B this font))
  = match FcNameParse B font with None => true | Some _ => false end
  /\ existsb is_symbol_trace (snd (load_face B this font)) = false.
Proof.
  unfold load_face.
  destruct (FcNameParse B font); [|split; reflexivity].
  destruct (FcPatternGetString B _ FC_FILE 0); [|split; reflexivity].
  destruct (FcPatternGetInteger B _ FC_INDEX 0); [|split; reflexivity].
  destruct (FcPatternGetString B _ FC_FONT_FEATURES 0);
    destruct (FT_New_Face B _ _ _); split; reflexivity.
Qed.

Lemma load_face_parsed (this : FontCache B) (font : string)
      (r : FT_FaceRec * list string) (msgs : list message) :
  load_face B this font = (Some r, msgs) -> FcNameParse B font <> None.
Proof.
  unfold load_face. destruct (FcNameParse B font); [discriminate|].
  intros H. inversion H.
Qed.

Lemma charmap_listing_quiet (a : Z) (cms : list FT_CharMapRec) :
  existsb is_font_warning (charmap_listing a cms) = false
  /\ existsb is_symbol_trace (charmap_listing a cms) = false.
Proof.
  revert a. induction cms as [|cm cms IH]; intros a; simpl; [now split|].
  apply IH.
Qed.

Lemma first_accepted_some (face : FT_FaceRec) (platform encoding : Z) (cm : FT_CharMapRec) :
  first_accepted B face platform encoding = Some cm ->
  In cm (charmaps face)
  /\ charmap_matches cm platform encoding = true
  /\ ft_set_charmap B face cm = true.
Proof.
  unfold first_accepted. intros H. apply find_some in H.
  destruct H as [Hin H]. apply andb_prop in H. tauto.
Qed.

Lemma first_accepted_none (face : FT_FaceRec) (platform encoding : Z) :
  first_accepted B face platform encoding = None ->
  forall cm, In cm (charmaps face) ->
             charmap_matches cm platform encoding = true ->
             ft_set_charmap B face cm = false.
Proof.
  unfold first_accepted. intros H cm Hin Hm.
  pose proof (find_none _ _ H cm Hin) as Hf. simpl in Hf.
  now rewrite Hm in Hf.
Qed.

(** X8: the resolver is defined on every query: it never reads the active
    charmap of a face that has none. *)
Theorem resolver_defined (this : FontCache B) (font : string) :
  find_face_fontconfig B this font <> None /\ find_face B this font <> None.
Proof.
  assert (H : forall q, find_face_fontconfig B this q <> None).
  { intros q. rewrite find_face_fontconfig_run.
    destruct (load_face B this q) as [[[ftFace features]|] msgs]; discriminate. }
  split; [apply H|]. unfold find_face.
  specialize (H (lookup_of font)).
  destruct (find_face_fontconfig B this (lookup_of font)) as [[[f|] m]|];
    [discriminate | discriminate | congruence].
Qed.

(** X9: the resolver answers not-found exactly when no face could be
    loaded, and then it has written what the loading wrote and nothing
    more.  A font warning is among the messages of the loading exactly
    when the query could not be parsed: a font that is not matched or
    whose file cannot be loaded is not warned about. *)
Theorem resolver_not_found (this : FontCache B) (font : string) :
  (option_map fst (find_face_fontconfig B this font) = Some None
   <-> fst (load_face B this font) = None)
  /\ (fst (load_face B this font) = None ->
      find_face_fontconfig B this font = Some (None, snd (load_face B this font)))
  /\ existsb is_font_warning (snd (load_face B this font))
     = match FcNameParse B font with None => true | Some _ => false end.
Proof.
  rewrite find_face_fontconfig_run.
  split; [|split].
  - destruct (load_face B this font) as [[[ftFace features]|] msgs]; simpl;
      split; intros H; try reflexivity; discriminate.
  - destruct (load_face B this font) as [[[ftFace features]|] msgs]; simpl;
      intros H; [discriminate | reflexivity].
  - apply load_face_messages.
Qed.

(** X10: the face the resolver returns is the face that was loaded, with
    the same names and the same charmap table; only the active charmap can
    differ.  When it does, it is the engine's choice of a Unicode charmap,
    or an entry of the table that the engine accepted and that matches a
    pair of the priority list.  The feature tags are those of the loading,
    and the messages extend those of the loading. *)
Theorem resolver_keeps_face
        (this : FontCache B) (font : string)
        (ftFace : FT_FaceRec) (features : list string) (msgs : list message) :
  load_face B this font = (Some (ftFace, features), msgs) ->
  exists active log,
    find_face_fontconfig B this font
    = Some (Some {| face_ := with_charmap ftFace active; features_ := features |},
            (msgs ++ charmap_listing 0 (charmaps ftFace)) ++ log)
    /\ (active = charmap ftFace
        \/ exists cm,
            active = Some cm
            /\ (ft_select_charmap B ftFace ft_encoding_unicode = Some cm
                \/ (In cm (charmaps ftFace)
                    /\ ft_set_charmap B ftFace cm = true
                    /\ exists q, In q fallback_chain
                                 /\ charmap_matches cm (fst q) (snd q) = true))).
Proof.
  intros Hload. rewrite find_face_fontconfig_run, Hload.
  unfold selection.
  destruct (ft_select_charmap B ftFace ft_encoding_unicode) as [cm|] eqn:Hsel.
  - do 2 eexists. split; [reflexivity|]. right. exists cm. simpl. tauto.
  - destruct (accepted_pair B ftFace) as [q|] eqn:Hq.
    + destruct (first_accepted B ftFace (fst q) (snd q)) as [cm|] eqn:Hcm.
      * do 2 eexists. split; [reflexivity|]. right. exists cm. simpl.
        split; [reflexivity|]. right.
        destruct (first_accepted_some _ _ _ _ Hcm) as (Hin & Hm & Hok).
        repeat split; try assumption. exists q. split; [|assumption].
        unfold accepted_pair in Hq. now apply find_some in Hq.
      * exists (charmap ftFace). eexists. simpl. split; [|now left].
        destruct ftFace; reflexivity.
    + exists (charmap ftFace). eexists. simpl. split; [|now left].
      destruct ftFace; reflexivity.
Qed.

(** X11: for a face that could be loaded, the resolver writes a font
    warning exactly when the built-in selection fails and no pair of the
    priority list can be activated; whenever it writes none, the face it
    returns has an active charmap. *)
Theorem resolver_warns_iff_no_charmap
        (this : FontCache B) (font : string)
        (ftFace : FT_FaceRec) (features : list string) (msgs : list message) :
  load_face B this font = (Some (ftFace, features), msgs) ->
  exists f log,
    find_face_fontconfig B this font = Some (Some f, log)
    /\ (existsb is_font_warning log = true
        <-> ft_select_charmap B ftFace ft_encoding_unicode = None
            /\ forall q, In q fallback_chain ->
                         first_accepted B ftFace (fst q) (snd q) = None)
    /\ (existsb is_font_warning log = false -> charmap (face_ f) <> None).
Proof.
  intros Hload. rewrite find_face_fontconfig_run, Hload.
  do 2 eexists. split; [reflexivity|].
  assert (Hm : existsb is_font_warning msgs = false).
  { pose proof (proj1 (load_face_messages this font)) as H. rewrite Hload in H.
    simpl in H. rewrite H.
    pose proof (load_face_parsed _ _ _ _ Hload).
    destruct (FcNameParse B font); [reflexivity | congruence]. }
  rewrite !existsb_app, Hm, (proj1 (charmap_listing_quiet 0 (charmaps ftFace))).
  simpl orb. unfold selection.
  destruct (ft_select_charmap B ftFace ft_encoding_unicode) as [cm|] eqn:Hsel.
  - simpl. split; [|discriminate]. split; [discriminate | intros [H _]; discriminate].
  - destruct (accepted_pair B ftFace) as [q|] eqn:Hq.
    + unfold accepted_pair in Hq. apply find_some in Hq. destruct Hq as [Hin Hq].
      destruct (first_accepted B ftFace (fst q) (snd q)) as [cm|] eqn:Hcm;
        [|discriminate].
      assert (Hquiet : existsb is_font_warning (selected_messages B ftFace cm) = false).
      { unfold selected_messages. simpl.
        destruct (is_windows_symbol_font B (set_active ftFace cm)) as [[|]|]; reflexivity. }
      simpl fst; simpl snd. rewrite Hquiet. split; [|discriminate].
      split; [discriminate|]. intros [_ Hall].
      rewrite (Hall q Hin) in Hcm. discriminate.
    + simpl. split.
      * split; [|reflexivity]. intros _. split; [reflexivity|].
        intros q Hin. unfold accepted_pair in Hq.
        pose proof (find_none _ _ Hq q Hin) as Hn. simpl in Hn.
        destruct (first_accepted B ftFace (fst q) (snd q)); [discriminate | reflexivity].
      * discriminate.
Qed.

(** X12: a step of the selector that succeeds leaves active an entry of
    the face's own table, of the platform asked for and, unless the
    encoding asked for is negative, of that encoding, which the engine
    accepted; a step that fails leaves the face and the log alone, every
    matching entry having been refused. *)
Theorem try_charmap_outcome (platform encoding : Z) (w w' : world) (ok : bool) :
  try_charmap B platform encoding w = Some (ok, w') ->
  if ok then
    exists cm,
      In cm (charmaps (w_face w))
      /\ platform_id cm = platform
      /\ (encoding < 0 \/ encoding_id cm = encoding)
      /\ ft_set_charmap B (w_face w) cm = true
      /\ w_face w' = set_active (w_face w) cm
  else
    w' = w
    /\ forall cm, In cm (charmaps (w_face w)) ->
                  charmap_matches cm platform encoding = true ->
                  ft_set_charmap B (w_face w) cm = false.
Proof.
  rewrite try_charmap_run.
  destruct (first_accepted B (w_face w) platform encoding) as [cm|] eqn:Hcm;
    intros H; inversion H; subst.
  - destruct (first_accepted_some _ _ _ _ Hcm) as (Hin & Hm & Hok).
    exists cm. unfold charmap_matches in Hm.
    apply andb_prop in Hm. destruct Hm as [Hp He].
    apply Z.eqb_eq in Hp. apply orb_prop in He.
    repeat split; try assumption.
    destruct He as [He|He]; [left; now apply Z.ltb_lt | right; now apply Z.eqb_eq].
  - split; [reflexivity|]. now apply first_accepted_none.
Qed.

(** X13: every negative encoding is the wildcard: a step that asks for a
    negative encoding does what the step for -1 does. *)
Theorem try_charmap_wildcard (platform encoding : Z) (w : world) :
  encoding < 0 ->
  try_charmap B platform encoding w = try_charmap B platform (-1) w.
Proof.
  intros Hneg. rewrite !try_charmap_run.
  assert (E : first_accepted B (w_face w) platform encoding
              = first_accepted B (w_face w) platform (-1)).
  { unfold first_accepted. induction (charmaps (w_face w)) as [|cm cms IH]; simpl.
    - reflexivity.
    - unfold charmap_matches at 1 3.
      destruct (Z.ltb_spec encoding 0); [|lia]. simpl. now rewrite IH. }
  now rewrite E.
Qed.

Lemma is_windows_symbol_font_true (face : FT_FaceRec) :
  is_windows_symbol_font B face = Some true ->
  exists cm charcode,
    charmap face = Some cm
    /\ platform_id cm = TT_PLATFORM_MICROSOFT
    /\ encoding_id cm = TT_MS_ID_SYMBOL_CS
    /\ first_defined_char B face = Some charcode
    /\ 0xF000 <= charcode.
Proof.
  unfold is_windows_symbol_font, first_defined_char.
  destruct (charmap face) as [cm|]; [|discriminate].
  destruct (Z.eqb_spec (platform_id cm) TT_PLATFORM_MICROSOFT); [|discriminate].
  destruct (Z.eqb_spec (encoding_id cm) TT_MS_ID_SYMBOL_CS); [|discriminate].
  simpl negb. cbv iota.
  destruct (FT_Get_First_Char B face) as [charcode gindex].
  destruct (gindex =? 0); [discriminate|].
  destruct (Z.ltb_spec charcode 61440); [discriminate|].
  intros _. exists cm, charcode. repeat split; assumption.
Qed.

(** X14: the trace that announces a Windows symbol font is written only
    when the built-in selection failed on the loaded face, the face comes
    back with its (Microsoft, Symbol) table entry active, and its first
    defined character code is at least 0xF000. *)
Theorem symbol_trace_means_symbol_font
        (this : FontCache B) (font : string)
        (ftFace : FT_FaceRec) (features : list string) (msgs : list message)
        (f : FontFace) (log : list message) :
  load_face B this font = (Some (ftFace, features), msgs) ->
  find_face_fontconfig B this font = Some (Some f, log) ->
  existsb is_symbol_trace log = true ->
  ft_select_charmap B ftFace ft_encoding_unicode = None
  /\ In (mkCharMap TT_PLATFORM_MICROSOFT TT_MS_ID_SYMBOL_CS) (charmaps ftFace)
  /\ face_ f = set_active ftFace (mkCharMap TT_PLATFORM_MICROSOFT TT_MS_ID_SYMBOL_CS)
  /\ exists charcode, first_defined_char B (face_ f) = Some charcode
                      /\ 0xF000 <= charcode.
Proof.
  intros Hload Hfind Htrace.
  rewrite find_face_fontconfig_run, Hload in Hfind.
  inversion Hfind as [[Hf Hlog]]. clear Hfind. rewrite <- Hlog in Htrace. simpl face_.
  pose proof (proj2 (load_face_messages this font)) as Hm. rewrite Hload in Hm.
  simpl snd in Hm.
  rewrite !existsb_app, Hm, (proj2 (charmap_listing_quiet 0 (charmaps ftFace))) in Htrace.
  simpl orb in Htrace. unfold selection in *.
  destruct (ft_select_charmap B ftFace ft_encoding_unicode) as [cm|];
    [discriminate Htrace|].
  destruct (accepted_pair B ftFace) as [q|]; [|discriminate Htrace].
  destruct (first_accepted B ftFace (fst q) (snd q)) as [cm|] eqn:Hcm;
    [|discriminate Htrace].
  simpl fst in *. simpl snd in Htrace.
  unfold selected_messages in Htrace.
  destruct (is_windows_symbol_font B (set_active ftFace cm)) as [[|]|] eqn:Hsym;
    try discriminate Htrace.
  destruct (is_windows_symbol_font_true _ Hsym) as (cm' & charcode & Hact & Hp & He & Hc & Hge).
  simpl in Hact. inversion Hact; subst cm'.
  assert (Ecm : cm = mkCharMap TT_PLATFORM_MICROSOFT TT_MS_ID_SYMBOL_CS)
    by (destruct cm; simpl in *; congruence).
  destruct (first_accepted_some _ _ _ _ Hcm) as (Hin & _ & _).
  rewrite <- Ecm. repeat split; try assumption.
  now exists charcode.
Qed.

End Resolver.

(** The face with a (Macintosh, Roman) table only. *)
Lemma resolver_keeps_face_witness :
  load_face Demo.B Demo.fresh "OldMac" = (Some (Demo.old_mac, [EmptyString]), [])
  /\ exists active log,
      find_face_fontconfig Demo.B Demo.fresh "OldMac"
      = Some (Some {| face_ := with_charmap Demo.old_mac active;
                      features_ := [EmptyString] |},
              ([] ++ charmap_listing 0 (charmaps Demo.old_mac)) ++ log).
Proof.
  split; [reflexivity|].
  destruct (resolver_keeps_face Demo.B Demo.fresh "OldMac" Demo.old_mac
              [EmptyString] [] eq_refl) as (active & log & H & _).
  exists active, log. exact H.
Defined.

(** The face without any charmap. *)
Lemma resolver_warns_iff_no_charmap_witness :
  load_face Demo.B Demo.fresh "Bare" = (Some (Demo.bare, [EmptyString]), [])
  /\ exists f log, find_face_fontconfig Demo.B Demo.fresh "Bare" = Some (Some f, log).
Proof.
  split; [reflexivity|].
  destruct (resolver_warns_iff_no_charmap Demo.B Demo.fresh "Bare" Demo.bare
              [EmptyString] [] eq_refl) as (f & log & H & _).
  exists f, log. exact H.
Defined.

(** The wildcard step on the face whose first Apple-Unicode entry is
    refused. *)
Lemma try_charmap_outcome_witness :
  exists cm,
    In cm (charmaps Demo.variations)
    /\ platform_id cm = TT_PLATFORM_APPLE_UNICODE
    /\ (-1 < 0 \/ encoding_id cm = -1)
    /\ ft_set_charmap Demo.B Demo.variations cm = true
    /\ set_active Demo.variations Demo.last_resort_cm = set_active Demo.variations cm.
Proof.
  exact (try_charmap_outcome Demo.B TT_PLATFORM_APPLE_UNICODE (-1)
           {| w_face := Demo.variations; w_log := [] |} _ true eq_refl).
Defined.

Lemma try_charmap_wildcard_witness :
  -7 < 0
  /\ try_charmap Demo.B TT_PLATFORM_APPLE_UNICODE (-7)
                 {| w_face := Demo.variations; w_log := [] |}
     = try_charmap Demo.B TT_PLATFORM_APPLE_UNICODE (-1)
                   {| w_face := Demo.variations; w_log := [] |}.
Proof.
  split; [lia|]. apply try_charmap_wildcard. lia.
Defined.

(** The symbol font of the installation. *)
Lemma symbol_trace_means_symbol_font_witness :
  load_face Demo.B Demo.fresh "Dingbats" = (Some (Demo.dingbats, [EmptyString]), [])
  /\ ft_select_charmap Demo.B Demo.dingbats ft_encoding_unicode = None
  /\ In (mkCharMap TT_PLATFORM_MICROSOFT TT_MS_ID_SYMBOL_CS) (charmaps Demo.dingbats).
Proof.
  split; [reflexivity|].
  destruct (symbol_trace_means_symbol_font Demo.B Demo.fresh "Dingbats" Demo.dingbats
              [EmptyString] [] _ _ eq_refl eq_refl eq_refl) as (H1 & H2 & _).
  split; assumption.
Defined.

(** ** The constructor and the font catalogue *)

Section Construction.

Variable B : Backend.

Lemma add_font_dir_quiet (cfg : option (FcConfig B)) (path : string) :
  List.filter is_font_warning (add_font_dir B cfg path) = [].
Proof.
  unfold add_font_dir. destruct (negb (fs_is_directory B path)); [reflexivity|].
  destruct (negb (FcConfigAppFontAddDir B cfg path)); reflexivity.
Qed.

Lemma filter_app_nil {A : Type} (p : A -> bool) (l1 l2 : list A) :
  List.filter p l1 = [] -> List.filter p (l1 ++ l2) = List.filter p l2.
Proof. intros H. now rewrite filter_app, H. Qed.

Lemma env_dirs_quiet (cfg : option (FcConfig B)) (paths : list string) :
  List.filter is_font_warning
    (flat_map (fun p => if fs_exists B p && fs_is_directory B p
                        then add_font_dir B cfg (fs_absolute B p)
                        else []) paths) = [].
Proof.
  induction paths as [|p paths IH]; simpl; [reflexivity|].
  rewrite filter_app, IH, app_nil_r.
  destruct (fs_exists B p && fs_is_directory B p); [apply add_font_dir_quiet | reflexivity].
Qed.

(** X15: the object that the constructor builds has an empty cache; it
    reports [is_init_ok] exactly when it holds both a fontconfig
    configuration and a FreeType library; the constructor writes no font
    warning when it does and exactly one when it does not; and when
    fontconfig fails that warning is all it writes (no font directory is
    looked at). *)
Theorem FontCache_new_state :
  let this := fst (FontCache_new B) in
  let log := snd (FontCache_new B) in
  cache this = []
  /\ is_init_ok B this
     = (match config this with Some _ => true | None => false end
        && match library this with Some _ => true | None => false end)
  /\ length (List.filter is_font_warning log) = (if is_init_ok B this then 0 else 1)%nat
  /\ (FcInitLoadConfig B = None ->
      config this = None /\ library this = None
      /\ log = [LOG Font_Warning
                    "Can't initialize fontconfig library, text() objects will not be rendered"
                    []]).
Proof.
  unfold FontCache_new, is_init_ok.
  destruct (FcInitLoadConfig B) as [cfg|].
  - destruct (FT_Init_FreeType B) as [lib|]; simpl; repeat split; try discriminate.
    + rewrite filter_app_nil;
        [|destruct (fs_is_directory B (resourcePath_fonts B)); [apply add_font_dir_quiet | reflexivity]].
      rewrite filter_app_nil;
        [|destruct (getenv B "HOME"); [apply add_font_dir_quiet | reflexivity]].
      destruct (getenv B "OPENSCAD_FONT_PATH"); [|reflexivity].
      now rewrite env_dirs_quiet.
    + rewrite filter_app_nil;
        [|destruct (fs_is_directory B (resourcePath_fonts B)); [apply add_font_dir_quiet | reflexivity]].
      rewrite filter_app_nil;
        [|destruct (getenv B "HOME"); [apply add_font_dir_quiet | reflexivity]].
      rewrite filter_app_nil; [reflexivity|].
      destruct (getenv B "OPENSCAD_FONT_PATH"); [|reflexivity].
      apply env_dirs_quiet.
  - simpl. repeat split.
Qed.

Variable K : Catalogue B.

Lemma list_fonts_from_filter (fonts : list (FcPattern B)) :
  list_fonts_from K fonts = map (info_of K) (List.filter complete fonts).
Proof.
  induction fonts as [|p fonts IH]; [reflexivity|].
  cbn [list_fonts_from List.filter]. unfold complete at 1.
  destruct (FcPatternGetString B (Some p) FC_FILE 0) eqn:E1;
    destruct (FcPatternGetString B (Some p) FC_FAMILY 0) eqn:E2;
    destruct (FcPatternGetString B (Some p) FC_STYLE 0) eqn:E3;
    cbn [map]; rewrite IH; try reflexivity.
  f_equal. unfold info_of. now rewrite E1, E2, E3.
Qed.

(** X16: [list_fonts] lists, in the order of the font set that fontconfig
    answers, exactly the fonts that carry a file, a family and a style,
    each with these three strings and the hash of its pattern; a font
    that lacks one of them is left out, so the list is never longer than
    the font set and is as long when no font lacks anything. *)
Theorem list_fonts_skips_incomplete (this : FontCache B) (fonts : list (FcPattern B)) :
  FcFontList K (config this) (init_pattern B (FcPatternCreate K))
             [FC_FAMILY; FC_STYLE; FC_FILE] = Some fonts ->
  exists infos,
    list_fonts K this = Some infos
    /\ infos = map (info_of K) (List.filter complete fonts)
    /\ (length infos <= length fonts)%nat
    /\ (forallb complete fonts = true -> length infos = length fonts)
    /\ (forall info, In info infos ->
          exists p, In p fonts
                    /\ FcPatternGetString B (Some p) FC_FAMILY 0 = Some (family info)
                    /\ FcPatternGetString B (Some p) FC_STYLE 0 = Some (style info)
                    /\ FcPatternGetString B (Some p) FC_FILE 0 = Some (file info)
                    /\ hash info = FcPatternHash K p).
Proof.
  intros Hlist. unfold list_fonts. rewrite Hlist.
  eexists. split; [reflexivity|]. rewrite list_fonts_from_filter.
  split; [reflexivity|]. rewrite length_map. split; [apply filter_length_le|]. split.
  - intros Hall. f_equal. clear Hlist.
    induction fonts as [|p fonts IH]; [reflexivity|].
    simpl in *. apply andb_prop in Hall. destruct Hall as [Hp Hall].
    rewrite Hp. f_equal. now apply IH.
  - intros info Hin. apply in_map_iff in Hin. destruct Hin as (p & <- & Hp).
    apply filter_In in Hp. destruct Hp as [Hp Hc]. exists p. split; [assumption|].
    unfold complete in Hc. unfold info_of. simpl.
    destruct (FcPatternGetString B (Some p) FC_FILE 0); [|discriminate].
    destruct (FcPatternGetString B (Some p) FC_FAMILY 0); [|discriminate].
    destruct (FcPatternGetString B (Some p) FC_STYLE 0); [|discriminate].
    repeat split.
Qed.

End Construction.

(** Three installed fonts, one of them without a style. *)
Lemma list_fonts_skips_incomplete_witness :
  exists infos,
    list_fonts DemoCatalogue.K DemoCatalogue.fresh = Some infos
    /\ map family infos = ["DejaVu Sans"; "Liberation Sans"]%string.
Proof.
  destruct (list_fonts_skips_incomplete DemoCatalogue.B DemoCatalogue.K DemoCatalogue.fresh
              ["DejaVu Sans"; "Incomplete"; "Liberation Sans"]%string eq_refl)
    as (infos & Hl & Hi & _).
  exists infos. split; [exact Hl|]. rewrite Hi. reflexivity.
Defined.

(** ** Invariants of the cache *)

Section CacheInvariants.

Variable B : Backend.
Variable MAX : nat.

Import Cache CacheFacts.

Lemma find_face_some (this : FontCache B) (font : string) :
  exists face msgs, find_face B this font = Some (face, msgs).
Proof.
  unfold find_face. rewrite find_face_fontconfig_run.
  destruct (load_face B this (lookup_of font)) as [[[ftFace features]|] msgs];
    do 2 eexists; reflexivity.
Qed.

(** What eviction does, read backwards. *)
Lemma check_cleanup_cases (c c' : cache_t) :
  check_cleanup MAX c = Some c' ->
  (c' = c /\ (length c < MAX)%nat)
  \/ ((MAX <= length c)%nat
      /\ exists l1 x l2,
          c = l1 ++ x :: l2 /\ c' = l1 ++ l2
          /\ (forall y, In y l1 -> stamp x < stamp y)
          /\ (forall y, In y l2 -> stamp x <= stamp y)).
Proof.
  intros H. destruct (Nat.ltb_spec (length c) MAX) as [Hlt|Hge].
  - left. rewrite (check_cleanup_under MAX c Hlt) in H. inversion H; subst. now split.
  - right. split; [assumption|].
    destruct c as [|first rest].
    + unfold check_cleanup in H. destruct (Nat.ltb_spec (length (@nil (string * cache_entry_t))) MAX);
        [simpl in *; lia | discriminate].
    + destruct (check_cleanup_full MAX (first :: rest)) as (l1 & x & l2 & Hc & Hclean & H1 & H2);
        [discriminate | assumption |].
      rewrite Hclean in H. inversion H. exists l1, x, l2. repeat split; assumption.
Qed.

(** The three ways a call of [get_font] can go. *)
Lemma get_font_cases (this this' : FontCache B) (font : string) (now : time_t)
      (face : FontFacePtr) (msgs : list message) :
  get_font B MAX this font now = Some (face, this', msgs) ->
  (exists t, find font (cache this) = Some (face, t)
             /\ this' = set_cache this (replace font (face, now) (cache this))
             /\ msgs = [])
  \/ (find font (cache this) = None /\ face = None /\ this' = this
      /\ find_face B this font = Some (None, msgs))
  \/ (find font (cache this) = None
      /\ exists f c,
          face = Some f
          /\ find_face B this font = Some (Some f, msgs)
          /\ check_cleanup MAX (cache this) = Some c
          /\ find font c = None
          /\ this' = set_cache this (insert_new font (Some f, now) c)).
Proof.
  unfold get_font. destruct (find font (cache this)) as [[stored t]|] eqn:Hfind.
  - intros H. inversion H; subst. left. exists t. unfold assign. rewrite Hfind.
    repeat split.
  - destruct (find_face B this font) as [[[f|] m]|]; try discriminate.
    + destruct (check_cleanup MAX (cache this)) as [c|] eqn:Hc; [|discriminate].
      intros H. inversion H; subst. right. right. split; [reflexivity|].
      assert (Hmiss : find font c = None).
      { apply find_keys. intros Hin. apply (check_cleanup_keys MAX _ _ _ Hc) in Hin.
        now apply find_keys in Hfind. }
      exists f, c. unfold assign. rewrite Hmiss. repeat split.
    + intros H. inversion H; subst. right. left. repeat split.
Qed.

Lemma length_replace (key : string) (e : cache_entry_t) (c : cache_t) :
  length (replace key e c) = length c.
Proof.
  rewrite <- !(length_map fst). change (map fst) with keys. now rewrite keys_replace.
Qed.

Lemma get_font_size (this this' : FontCache B) (font : string) (now : time_t)
      (face : FontFacePtr) (msgs : list message) :
  (length (cache this) <= MAX)%nat ->
  get_font B MAX this font now = Some (face, this', msgs) ->
  (length (cache this') <= MAX)%nat.
Proof.
  intros Hle Hget. apply get_font_cases in Hget.
  destruct Hget as [(t & _ & -> & _) | [(_ & _ & -> & _) | (_ & f & c & _ & _ & Hc & _ & ->)]].
  - simpl. now rewrite length_replace.
  - assumption.
  - simpl. rewrite length_insert_new. apply check_cleanup_cases in Hc.
    destruct Hc as [[-> Hlt] | (_ & l1 & x & l2 & Hsplit & -> & _)].
    + lia.
    + rewrite Hsplit in Hle. rewrite length_app in *. simpl in Hle. lia.
Qed.

Lemma get_font_nodup (this this' : FontCache B) (font : string) (now : time_t)
      (face : FontFacePtr) (msgs : list message) :
  NoDup (keys (cache this)) ->
  get_font B MAX this font now = Some (face, this', msgs) ->
  NoDup (keys (cache this')).
Proof.
  intros Hnd Hget. apply get_font_cases in Hget.
  destruct Hget as [(t & _ & -> & _) | [(_ & _ & -> & _) | (_ & f & c & _ & _ & Hc & Hmiss & ->)]].
  - simpl. now rewrite keys_replace.
  - assumption.
  - simpl. apply NoDup_insert_new; [now apply find_keys|].
    apply check_cleanup_cases in Hc.
    destruct Hc as [[-> _] | (_ & l1 & x & l2 & Hsplit & -> & _)]; [assumption|].
    rewrite Hsplit in Hnd. unfold keys in *. rewrite map_app in *. simpl in Hnd.
    now apply NoDup_remove_1 in Hnd.
Qed.

(** X17: the cache never grows beyond the maximum: whatever the queries
    and the times of the calls, a cache of at most MAX entries has at most
    MAX entries after any run of [get_font] calls. *)
Theorem cache_size_bounded (qs : list (string * time_t)) :
  forall (this this' : FontCache B) (faces : list FontFacePtr),
    (length (cache this) <= MAX)%nat ->
    get_fonts B MAX this qs = Some (faces, this') ->
    (length (cache this') <= MAX)%nat.
Proof.
  induction qs as [|[font now] qs IH]; intros this this' faces Hle Hrun; simpl in Hrun.
  - inversion Hrun; now subst.
  - destruct (get_font B MAX this font now) as [[[face this1] msgs]|] eqn:Hget;
      [|discriminate].
    destruct (get_fonts B MAX this1 qs) as [[faces' this2]|] eqn:Hrest; [|discriminate].
    inversion Hrun; subst. apply (IH this1 this' faces'); [|assumption].
    now apply get_font_size with this font now face msgs.
Qed.

(** X18: the cache keeps one entry per key: whatever the queries, keys
    that are pairwise distinct before a run of [get_font] calls are
    pairwise distinct after it; asking for a key twice does not give it
    two entries. *)
Theorem one_entry_per_key (qs : list (string * time_t)) :
  forall (this this' : FontCache B) (faces : list FontFacePtr),
    NoDup (keys (cache this)) ->
    get_fonts B MAX this qs = Some (faces, this') ->
    NoDup (keys (cache this')).
Proof.
  induction qs as [|[font now] qs IH]; intros this this' faces Hnd Hrun; simpl in Hrun.
  - inversion Hrun; now subst.
  - destruct (get_font B MAX this font now) as [[[face this1] msgs]|] eqn:Hget;
      [|discriminate].
    destruct (get_fonts B MAX this1 qs) as [[faces' this2]|] eqn:Hrest; [|discriminate].
    inversion Hrun; subst. apply (IH this1 this' faces'); [|assumption].
    now apply get_font_nodup with this font now face msgs.
Qed.

Lemma no_null_replace (key : string) (f : FontFacePtr) (now : time_t) (c : cache_t) :
  f <> None -> no_null_faces c -> no_null_faces (replace key (f, now) c).
Proof.
  intros Hf Hc. unfold no_null_faces in *. induction c as [|[k e] c IH]; simpl; [constructor|].
  inversion Hc; subst. destruct (k =? key)%string; constructor; auto.
Qed.

Lemma no_null_insert_new (key : string) (f : FontFacePtr) (now : time_t) (c : cache_t) :
  f <> None -> no_null_faces c -> no_null_faces (insert_new key (f, now) c).
Proof.
  intros Hf Hc. unfold no_null_faces in *. induction c as [|[k e] c IH]; simpl.
  - constructor; [assumption | constructor].
  - inversion Hc; subst. destruct (key <? k)%string; constructor; auto.
Qed.

Lemma no_null_find (key : string) (f : FontFacePtr) (t : time_t) (c : cache_t) :
  no_null_faces c -> find key c = Some (f, t) -> f <> None.
Proof.
  intros Hc Hf. apply find_In in Hf. unfold no_null_faces in Hc.
  rewrite Forall_forall in Hc. exact (Hc _ Hf).
Qed.

(** X19: starting from a cache whose entries all hold a face, [get_font]
    keeps it so; and then a null result always means that this very call
    missed the cache and the resolver found nothing, and that the object
    is exactly what it was. *)
Theorem null_result_leaves_object
        (this this' : FontCache B) (font : string) (now : time_t)
        (face : FontFacePtr) (msgs : list message) :
  no_null_faces (cache this) ->
  get_font B MAX this font now = Some (face, this', msgs) ->
  no_null_faces (cache this')
  /\ (face = None ->
      this' = this /\ find font (cache this) = None
      /\ find_face B this font = Some (None, msgs)).
Proof.
  intros Hinv Hget. apply get_font_cases in Hget.
  destruct Hget as [(t & Hhit & -> & _) | [(Hmiss & -> & -> & Hres) | (_ & f & c & -> & _ & Hc & _ & ->)]].
  - pose proof (no_null_find _ _ _ _ Hinv Hhit) as Hface. split.
    + simpl. now apply no_null_replace.
    + intros E. congruence.
  - split; [assumption|]. intros _. repeat split; assumption.
  - split; [|discriminate]. simpl. apply no_null_insert_new; [discriminate|].
    apply check_cleanup_cases in Hc.
    destruct Hc as [[-> _] | (_ & l1 & x & l2 & Hsplit & -> & _)]; [assumption|].
    rewrite Hsplit in Hinv. unfold no_null_faces in *.
    apply Forall_app in Hinv. destruct Hinv as [H1 H2]. inversion H2; subst.
    apply Forall_app. now split.
Qed.

(** X20: a query that was just answered with a face is answered from the
    cache the next time: the same face comes back, the resolver is not
    called again, no entry is added, and the entry carries the time of
    the second call. *)
Theorem second_lookup_hits
        (this this1 : FontCache B) (font : string) (now1 now2 : time_t)
        (f : FontFace) (msgs : list message) :
  get_font B MAX this font now1 = Some (Some f, this1, msgs) ->
  exists this2,
    get_font B MAX this1 font now2 = Some (Some f, this2, [])
    /\ keys (cache this2) = keys (cache this1)
    /\ find font (cache this2) = Some (Some f, now2).
Proof.
  intros Hget.
  assert (Hin : find font (cache this1) = Some (Some f, now1)).
  { apply get_font_cases in Hget.
    destruct Hget as [(t & Hhit & -> & _) | [(_ & E & _) | (_ & g & c & E & _ & _ & Hmiss & ->)]].
    - simpl. now apply find_replace_same with (Some f, t).
    - discriminate.
    - inversion E; subst. simpl. now apply find_insert_new_same. }
  eexists. split; [now apply get_font_hit with now1|]. simpl. split.
  - apply keys_replace.
  - now apply find_replace_same with (Some f, now1).
Qed.

(** X21: the only way [get_font] can be undefined is the eviction from an
    empty cache, which takes a maximum of 0: a call is undefined exactly
    when the maximum is 0, the cache is empty and the query is resolved. *)
Theorem get_font_undefined_iff (this : FontCache B) (font : string) (now : time_t) :
  get_font B MAX this font now = None
  <-> MAX = 0%nat /\ cache this = [] /\ resolves B this font.
Proof.
  unfold get_font, resolves. split.
  - destruct (find font (cache this)) as [[stored t]|]; [discriminate|].
    destruct (find_face_some this font) as (face & msgs & ->).
    destruct face as [f|]; [|discriminate].
    unfold check_cleanup. destruct (Nat.ltb_spec (length (cache this)) MAX); [discriminate|].
    destruct (cache this) as [|first rest] eqn:E; [|discriminate].
    intros _. simpl in *. repeat split; [lia|]. now exists f, msgs.
  - intros (-> & Hc & f & msgs & Hf). rewrite Hc, Hf. reflexivity.
Qed.

End CacheInvariants.

(** ** Eviction as seen by the caller *)

Section Discipline.

Variable B : Backend.
Variable MAX : nat.

Import Cache CacheFacts.

(** X22: a call of [get_font] changes no entry but that of its query,
    except that it may remove one: at most one key disappears per call,
    and only in a call that missed a cache holding at least MAX entries
    and got a face from the resolver; the key that disappears then held a
    timestamp that no other entry was below.  (So an entry younger than
    some other entry always survives the call.) *)
Theorem get_font_evicts_only_the_oldest
        (this this' : FontCache B) (font : string) (now : time_t)
        (face : FontFacePtr) (msgs : list message) :
  NoDup (keys (cache this)) ->
  get_font B MAX this font now = Some (face, this', msgs) ->
  (forall k e,
      k <> font -> find k (cache this) = Some e ->
      find k (cache this') = Some e
      \/ (find k (cache this') = None
          /\ find font (cache this) = None
          /\ face <> None
          /\ (MAX <= length (cache this))%nat
          /\ forall k' e', find k' (cache this) = Some e' -> snd e <= snd e'))
  /\ (forall k1 k2 e1 e2,
         find k1 (cache this) = Some e1 -> find k2 (cache this) = Some e2 ->
         find k1 (cache this') = None -> find k2 (cache this') = None ->
         k1 = k2).
Proof.
  intros Hnd Hget. apply get_font_cases in Hget.
  destruct Hget as [(t & Hhit & -> & _) | [(Hmiss & _ & -> & _) | (Hmiss & f & c & -> & _ & Hc & Hmissc & ->)]].
  - simpl. split.
    + intros k e Hk He. left. now rewrite find_replace_other.
    + intros k1 k2 e1 e2 H1 _ Hgone _. exfalso.
      destruct (string_dec k1 font) as [->|Hne].
      * rewrite (find_replace_same font (face, now) (face, t)) in Hgone by assumption.
        discriminate.
      * rewrite find_replace_other in Hgone by assumption. congruence.
  - split.
    + intros k e _ He. now left.
    + intros k1 k2 e1 e2 H1 _ Hgone _. congruence.
  - simpl. apply check_cleanup_cases in Hc.
    destruct Hc as [[-> Hlt] | (Hfull & l1 & x & l2 & Hsplit & -> & Hl1 & Hl2)].
    + split.
      * intros k e Hk He. left. now rewrite find_insert_new_other.
      * intros k1 k2 e1 e2 H1 _ Hgone _. exfalso.
        assert (k1 <> font) by congruence.
        rewrite find_insert_new_other in Hgone by assumption. congruence.
    + rewrite Hsplit in *. clear Hsplit. destruct x as [kx ex].
      pose proof (find_present l1 kx ex l2 Hnd) as Hx.
      assert (Hkeep : forall k, k <> font -> k <> kx ->
                find k (insert_new font (Some f, now) (l1 ++ l2))
                = find k (l1 ++ (kx, ex) :: l2)).
      { intros k Hk Hkx. rewrite find_insert_new_other by assumption.
        now apply find_not_erased. }
      split.
      * intros k e Hk He. destruct (string_dec k kx) as [->|Hkx].
        -- right. rewrite find_insert_new_other by assumption.
           pose proof (find_erased l1 (kx, ex) l2 Hnd) as Hgone. simpl in Hgone.
           rewrite Hgone.
           repeat split; try assumption; try discriminate.
           intros k' e' He'. rewrite Hx in He. inversion He; subst e.
           apply find_In in He'. apply in_app_or in He'.
           destruct He' as [H|[H|H]].
           ++ specialize (Hl1 _ H). stamps.
           ++ inversion H. lia.
           ++ specialize (Hl2 _ H). stamps.
        -- left. now rewrite Hkeep.
      * intros k1 k2 e1 e2 H1 H2 G1 G2.
        assert (N1 : k1 <> font) by congruence.
        assert (N2 : k2 <> font) by congruence.
        destruct (string_dec k1 kx) as [->|Hk1];
          [|rewrite Hkeep in G1 by assumption; congruence].
        destruct (string_dec k2 kx) as [->|Hk2];
          [reflexivity | rewrite Hkeep in G2 by assumption; congruence].
Qed.

(** X23: [clear] empties the cache and touches nothing else, and doing it
    twice is doing it once.  After it every query goes to the resolver
    again: with a positive maximum the call returns what the resolver
    finds, and a face that is found becomes the only entry. *)
Theorem clear_forgets (this : FontCache B) (font : string) (now : time_t) :
  (0 < MAX)%nat ->
  clear B (clear B this) = clear B this
  /\ cache (clear B this) = []
  /\ is_init_ok B (clear B this) = is_init_ok B this
  /\ get_font B MAX (clear B this) font now
     = match find_face B this font with
       | Some (Some f, msgs) =>
           Some (Some f, set_cache this [(font, (Some f, now))], msgs)
       | Some (None, msgs) => Some (None, clear B this, msgs)
       | None => None
       end.
Proof.
  intros Hpos. repeat split.
  unfold get_font. simpl.
  change (find_face B (clear B this) font) with (find_face B this font).
  destruct (find_face B this font) as [[[f|] msgs]|]; try reflexivity.
  unfold check_cleanup. simpl.
  destruct (Nat.ltb_spec 0 MAX); [reflexivity | lia].
Qed.

End Discipline.

(** ** The cache is a least-recently-used cache *)

Module LruFacts.

Lemma filter_perm {A : Type} (p : A -> bool) (l l' : list A) :
  Permutation l l' -> Permutation (List.filter p l) (List.filter p l').
Proof.
  induction 1 as [|x l l' _ IH|x y l|l l' l'' _ IH1 _ IH2]; simpl.
  - constructor.
  - destruct (p x); [now constructor | assumption].
  - destruct (p x), (p y); try reflexivity. apply perm_swap.
  - now transitivity (List.filter p l').
Qed.

Lemma filter_shorter {A : Type} (p : A -> bool) (l : list A) (x : A) :
  In x l -> p x = false -> (length (List.filter p l) < length l)%nat.
Proof.
  induction l as [|y l IH]; simpl; [tauto|].
  intros [->|Hin] Hx.
  - rewrite Hx. pose proof (filter_length_le p l). lia.
  - specialize (IH Hin Hx). destruct (p y); simpl; lia.
Qed.

Lemma filter_absent (key : string) (l : list (string * time_t)) :
  ~ In key (map fst l) ->
  List.filter (fun q => negb (fst q =? key)%string) l = l.
Proof.
  induction l as [|[k t] l IH]; simpl; [reflexivity|].
  intros Hout. destruct (String.eqb_spec k key) as [->|Hne]; [tauto|].
  simpl. rewrite IH; tauto.
Qed.

Lemma stamps_keys (c : cache_t) : map fst (stamps_of c) = Cache.keys c.
Proof. unfold stamps_of, Cache.keys. rewrite map_map. reflexivity. Qed.

Lemma stamps_replace (key : string) (f : FontFacePtr) (now : time_t) (c : cache_t) :
  NoDup (Cache.keys c) ->
  In key (Cache.keys c) ->
  Permutation (stamps_of (Cache.replace key (f, now) c))
              ((key, now) :: List.filter (fun q => negb (fst q =? key)%string) (stamps_of c)).
Proof.
  induction c as [|[k e] c IH]; simpl; [tauto|].
  intros Hnd Hin. inversion Hnd as [|? ? Hk Hnd']; subst.
  destruct (String.eqb_spec k key) as [->|Hne]; simpl.
  - rewrite filter_absent; [reflexivity|]. now rewrite stamps_keys.
  - destruct Hin as [Hin|Hin]; [congruence|].
    etransitivity; [apply perm_skip, IH; assumption|]. apply perm_swap.
Qed.

Lemma stamps_insert_new (key : string) (f : FontFacePtr) (now : time_t) (c : cache_t) :
  Permutation (stamps_of (Cache.insert_new key (f, now) c)) ((key, now) :: stamps_of c).
Proof.
  induction c as [|[k e] c IH]; simpl; [reflexivity|].
  destruct (key <? k)%string; simpl; [reflexivity|].
  etransitivity; [apply perm_skip, IH|]. apply perm_swap.
Qed.

Lemma sorted_last (l : list (string * time_t)) (z : string * time_t) :
  recency_sorted (l ++ [z]) -> forall y, In y l -> snd z < snd y.
Proof.
  unfold recency_sorted. induction l as [|a l IH]; simpl; [tauto|].
  intros Hs y [<-|Hy].
  - inversion Hs as [|? ? _ Hall]; subst. rewrite Forall_forall in Hall.
    apply Hall. apply in_or_app. right. now left.
  - inversion Hs; subst. now apply IH.
Qed.

Lemma sorted_front (l : list (string * time_t)) (z : string * time_t) :
  recency_sorted (l ++ [z]) -> recency_sorted l.
Proof.
  unfold recency_sorted. induction l as [|a l IH]; simpl; [constructor|].
  intros Hs. inversion Hs as [|? ? Hl Hall]; subst. constructor; [now apply IH|].
  apply Forall_app in Hall. tauto.
Qed.

Lemma sorted_filter (p : string * time_t -> bool) (l : list (string * time_t)) :
  recency_sorted l -> recency_sorted (List.filter p l).
Proof.
  unfold recency_sorted. induction l as [|a l IH]; simpl; [constructor|].
  intros Hs. inversion Hs as [|? ? Hl Hall]; subst.
  destruct (p a); [|now apply IH]. constructor; [now apply IH|].
  rewrite Forall_forall in *. intros x Hx. apply Hall.
  now apply filter_In in Hx.
Qed.

Lemma sorted_cons (key : string) (now : time_t) (l : list (string * time_t)) :
  (forall q, In q l -> snd q < now) -> recency_sorted l ->
  recency_sorted ((key, now) :: l).
Proof.
  intros Hnow Hs. constructor; [assumption|]. now rewrite Forall_forall.
Qed.

(** In a recency list the entry that no other entry is below is the last
    one. *)
Lemma oldest_is_last (l : list (string * time_t)) (x : string * time_t) :
  recency_sorted l -> In x l -> (forall q, In q l -> snd x <= snd q) ->
  exists l', l = l' ++ [x].
Proof.
  intros Hs Hin Hmin.
  destruct (exists_last (l := l)) as (l' & z & ->); [intros ->; contradiction|].
  exists l'. apply in_app_or in Hin. destruct Hin as [Hin|[->|[]]]; [|reflexivity].
  pose proof (sorted_last _ _ Hs x Hin) as Hlt.
  assert (snd x <= snd z) by (apply Hmin, in_or_app; right; now left). lia.
Qed.

Lemma firstn_subset {A : Type} (n : nat) (l : list A) (x : A) :
  In x (firstn n l) -> In x l.
Proof.
  intros H. rewrite <- (firstn_skipn n l). apply in_or_app. now left.
Qed.

Lemma touch_from (max : nat) (l : list (string * time_t)) (key : string) (now : time_t)
      (q : string * time_t) :
  In q (lru_touch max l key now) -> q = (key, now) \/ In q l.
Proof.
  unfold lru_touch. intros H. apply firstn_subset in H. destruct H as [<-|H]; [now left|].
  right. now apply filter_In in H.
Qed.

End LruFacts.

Section Lru.

Variable B : Backend.
Variable MAX : nat.

Import Cache CacheFacts LruFacts.

(** One call that returns a face moves the cache as the policy says. *)
Lemma get_font_touch (this this' : FontCache B) (l : list (string * time_t))
      (font : string) (now : time_t) (f : FontFace) (msgs : list message) :
  tracks (cache this) l ->
  (length l <= MAX)%nat ->
  (forall q, In q l -> snd q < now) ->
  get_font B MAX this font now = Some (Some f, this', msgs) ->
  tracks (cache this') (lru_touch MAX l font now).
Proof.
  intros (Hnd & Hperm & Hs) Hlen Hnow Hget.
  pose proof (get_font_nodup B MAX _ _ _ _ _ _ Hnd Hget) as Hnd'.
  assert (Hlenc : length (cache this) = length l).
  { rewrite <- (Permutation_length Hperm). unfold stamps_of. now rewrite length_map. }
  assert (Hkeys : forall k, In k (map fst l) <-> In k (keys (cache this))).
  { intros k. rewrite <- stamps_keys. split; apply Permutation_in.
    - apply Permutation_map. now symmetry.
    - now apply Permutation_map. }
  apply get_font_cases in Hget.
  destruct Hget as [(t & Hhit & -> & _) | [(_ & E & _) | (Hmiss & g & c & E & _ & Hc & Hmissc & ->)]];
    [| discriminate |].
  - (* hit *)
    assert (Hin : In font (keys (cache this))) by now apply find_some_keys in Hhit.
    assert (Hcut : lru_touch MAX l font now
                   = (font, now) :: List.filter (fun q => negb (fst q =? font)%string) l).
    { unfold lru_touch. apply firstn_all2. simpl.
      apply Hkeys in Hin. apply in_map_iff in Hin. destruct Hin as (q & Hq & Hql).
      pose proof (filter_shorter (fun q => negb (fst q =? font)%string) l q Hql) as Hsh.
      cbv beta in Hsh. rewrite Hq, String.eqb_refl in Hsh. specialize (Hsh eq_refl). lia. }
    rewrite Hcut. repeat split.
    + assumption.
    + simpl. etransitivity; [now apply stamps_replace|].
      apply perm_skip. now apply filter_perm.
    + apply sorted_cons; [|now apply sorted_filter].
      intros q Hq. apply filter_In in Hq. now apply Hnow.
  - (* miss, resolved *)
    assert (Hfresh : List.filter (fun q => negb (fst q =? font)%string) l = l).
    { apply filter_absent. rewrite Hkeys. now apply find_keys. }
    unfold lru_touch. rewrite Hfresh. simpl cache in *.
    apply check_cleanup_cases in Hc.
    destruct Hc as [[-> Hlt] | (Hfull & l1 & x & l2 & Hsplit & -> & Hl1 & Hl2)].
    + rewrite firstn_all2 by (simpl; lia). repeat split.
      * assumption.
      * etransitivity; [apply stamps_insert_new|]. now apply perm_skip.
      * now apply sorted_cons.
    + set (px := (fst x, stamp x)).
      assert (Hsplit' : stamps_of (cache this) = stamps_of l1 ++ px :: stamps_of l2).
      { rewrite Hsplit. unfold stamps_of. rewrite map_app. reflexivity. }
      assert (Hpx : In px l).
      { apply (Permutation_in _ Hperm). rewrite Hsplit'. apply in_or_app. right. now left. }
      assert (Hmin : forall q, In q l -> snd px <= snd q).
      { intros q Hq. apply (Permutation_in _ (Permutation_sym Hperm)) in Hq.
        rewrite Hsplit' in Hq. apply in_app_or in Hq. destruct Hq as [Hq|[<-|Hq]].
        - apply in_map_iff in Hq. destruct Hq as (y & <- & Hy).
          specialize (Hl1 _ Hy). simpl. lia.
        - lia.
        - apply in_map_iff in Hq. destruct Hq as (y & <- & Hy).
          specialize (Hl2 _ Hy). simpl. lia. }
      destruct (oldest_is_last l px Hs Hpx Hmin) as (l' & ->).
      assert (Hl' : Permutation (stamps_of (l1 ++ l2)) l').
      { unfold stamps_of at 1. rewrite map_app. fold (stamps_of l1). fold (stamps_of l2).
        rewrite Hsplit' in Hperm.
        pose proof (Permutation_app_inv _ _ _ _ _ Hperm) as H.
        now rewrite app_nil_r in H. }
      rewrite length_app in Hlen, Hlenc. simpl in Hlen, Hlenc.
      replace ((font, now) :: l' ++ [px]) with (((font, now) :: l') ++ [px]) by reflexivity.
      assert (Hn : MAX = length ((font, now) :: l')) by (simpl; lia).
      rewrite Hn at 1. rewrite firstn_app, firstn_all, Nat.sub_diag. simpl firstn.
      rewrite app_nil_r. repeat split.
      * assumption.
      * etransitivity; [apply stamps_insert_new|]. now apply perm_skip.
      * apply sorted_cons; [|now apply sorted_front with px].
        intros q Hq. apply Hnow. apply in_or_app. now left.
Qed.

Lemma get_font_faces (this this' : FontCache B) (font : string) (now : time_t)
      (face : FontFacePtr) (msgs : list message) :
  no_null_faces (cache this) ->
  get_font B MAX this font now = Some (face, this', msgs) ->
  no_null_faces (cache this') /\ (face = None -> this' = this).
Proof.
  intros Hinv Hget. apply get_font_cases in Hget.
  destruct Hget as [(t & Hhit & -> & _) | [(_ & -> & -> & _) | (_ & f & c & -> & _ & Hc & _ & ->)]].
  - pose proof (no_null_find _ _ _ _ Hinv Hhit) as Hface. split; [|congruence].
    simpl. now apply no_null_replace.
  - now split.
  - split; [|discriminate]. simpl. apply no_null_insert_new; [discriminate|].
    apply check_cleanup_cases in Hc.
    destruct Hc as [[-> _] | (_ & l1 & x & l2 & Hsplit & -> & _)]; [assumption|].
    rewrite Hsplit in Hinv. unfold no_null_faces in *.
    apply Forall_app in Hinv. destruct Hinv as [H1 H2]. inversion H2; subst.
    apply Forall_app. now split.
Qed.

(** X24: one call that returns a face is one step of the
    least-recently-used policy: if the cache holds the keys of a recency
    list of at most MAX keys, each with its time of last use, and the
    clock reads later than all of them, then after the call it holds the
    keys of the list in which the query has moved to the front and which
    is cut at MAX. *)
Theorem get_font_is_lru_step
        (this this' : FontCache B) (l : list (string * time_t))
        (font : string) (now : time_t) (f : FontFace) (msgs : list message) :
  tracks (cache this) l ->
  (length l <= MAX)%nat ->
  (forall q, In q l -> snd q < now) ->
  get_font B MAX this font now = Some (Some f, this', msgs) ->
  tracks (cache this') (lru_touch MAX l font now)
  /\ length (cache this') = length (lru_touch MAX l font now)
  /\ (forall key, In key (keys (cache this'))
                  <-> In key (map fst (lru_touch MAX l font now))).
Proof.
  intros Ht Hlen Hnow Hget.
  pose proof (get_font_touch _ _ _ _ _ _ _ Ht Hlen Hnow Hget) as (Hnd & Hperm & Hs).
  split; [repeat split; assumption|]. split.
  - rewrite <- (Permutation_length Hperm). unfold stamps_of. now rewrite length_map.
  - intros key. rewrite <- stamps_keys. split; apply Permutation_in.
    + now apply Permutation_map.
    + apply Permutation_map. now symmetry.
Qed.

(** X25: over any run of calls made with a clock that advances, the cache
    follows the least-recently-used policy: starting from a cache that
    holds the keys of a recency list (the empty cache holds the empty
    list), it ends holding the keys of the list that the policy computes
    from the calls that returned a face, each with the time of its last
    such call. *)
Theorem cache_is_lru (qs : list (string * time_t)) :
  forall (this this' : FontCache B) (l : list (string * time_t))
         (start : time_t) (faces : list FontFacePtr),
    tracks (cache this) l ->
    (length l <= MAX)%nat ->
    no_null_faces (cache this) ->
    (forall q, In q l -> snd q <= start) ->
    clock_advances start qs ->
    get_fonts B MAX this qs = Some (faces, this') ->
    tracks (cache this') (lru_run MAX l qs faces).
Proof.
  induction qs as [|[font now] qs IH];
    intros this this' l start faces Ht Hlen Hinv Hstart Hclock Hrun; simpl in Hrun.
  - inversion Hrun; subst. exact Ht.
  - destruct Hclock as [Hlt Hclock].
    destruct (get_font B MAX this font now) as [[[face this1] msgs]|] eqn:Hget;
      [|discriminate].
    destruct (get_fonts B MAX this1 qs) as [[faces' this2]|] eqn:Hrest; [|discriminate].
    inversion Hrun; subst. clear Hrun.
    destruct (get_font_faces _ _ _ _ _ _ Hinv Hget) as [Hinv1 Hnull].
    destruct face as [f|]; simpl.
    + apply (IH this1 this' _ now faces'); try assumption.
      * apply (get_font_touch this this1 l font now f msgs); try assumption.
        intros q Hq. specialize (Hstart q Hq). lia.
      * unfold lru_touch. apply firstn_le_length.
      * intros q Hq. apply touch_from in Hq. destruct Hq as [->|Hq]; [simpl; lia|].
        specialize (Hstart q Hq). lia.
    + rewrite (Hnull eq_refl) in Hrest.
      apply (IH this this' l now faces'); try assumption.
      intros q Hq. specialize (Hstart q Hq). lia.
Qed.

End Lru.

(** ** Instances of the invariants on the small installation *)

(** Four keys through a cache of three. *)
Lemma cache_size_bounded_witness :
  (length (cache Demo.fresh) <= 3)%nat
  /\ exists faces this',
      get_fonts Demo.B 3 Demo.fresh [("A", 1); ("B", 2); ("C", 3); ("D", 4)]
      = Some (faces, this')
      /\ (length (cache this') <= 3)%nat.
Proof.
  split; [simpl; lia|].
  do 2 eexists. split; [cbv; reflexivity|].
  apply (cache_size_bounded Demo.B 3 [("A", 1); ("B", 2); ("C", 3); ("D", 4)]
           Demo.fresh _ _ (Nat.le_0_l 3) eq_refl).
Defined.

(** The same key asked for twice, then another one. *)
Lemma one_entry_per_key_witness :
  NoDup (Cache.keys (cache Demo.fresh))
  /\ exists faces this',
      get_fonts Demo.B 3 Demo.fresh [("A", 1); ("A", 2); ("B", 3)] = Some (faces, this')
      /\ NoDup (Cache.keys (cache this')).
Proof.
  split; [constructor|].
  do 2 eexists. split; [cbv; reflexivity|].
  apply (one_entry_per_key Demo.B 3 [("A", 1); ("A", 2); ("B", 3)]
           Demo.fresh _ _ (NoDup_nil string) eq_refl).
Defined.

(** A family that is not installed, asked of the full cache. *)
Lemma null_result_leaves_object_witness :
  no_null_faces (cache Demo.warm)
  /\ exists msgs,
      get_font Demo.B 3 Demo.warm "NoSuchFont" 7 = Some (None, Demo.warm, msgs)
      /\ no_null_faces (cache Demo.warm).
Proof.
  assert (H : no_null_faces (cache Demo.warm))
    by (repeat constructor; discriminate).
  split; [exact H|].
  eexists. split; [cbv; reflexivity|].
  apply (null_result_leaves_object Demo.B 3 Demo.warm Demo.warm "NoSuchFont" 7 None _ H eq_refl).
Defined.

(** The first two calls of a session. *)
Lemma second_lookup_hits_witness :
  exists msgs this1 this2,
    get_font Demo.B 3 Demo.fresh "A" 1 = Some (Demo.loaded "A", this1, msgs)
    /\ get_font Demo.B 3 this1 "A" 2 = Some (Demo.loaded "A", this2, [])
    /\ Cache.keys (cache this2) = Cache.keys (cache this1)
    /\ Cache.find "A" (cache this2) = Some (Demo.loaded "A", 2).
Proof.
  do 2 eexists.
  assert (H : get_font Demo.B 3 Demo.fresh "A" 1
              = Some (Demo.loaded "A", set_cache Demo.fresh [("A", (Demo.loaded "A", 1))],
                      match find_face Demo.B Demo.fresh "A" with
                      | Some (_, m) => m
                      | None => []
                      end)) by reflexivity.
  destruct (second_lookup_hits Demo.B 3 _ _ "A" 1 2 _ _ H) as (this2 & H2).
  exists this2. split; [exact H | exact H2].
Defined.

(** A fourth key arrives in the full cache A:1, B:2, C:3. *)
Lemma get_font_evicts_only_the_oldest_witness :
  NoDup (Cache.keys (cache Demo.warm))
  /\ exists this' msgs,
      get_font Demo.B 3 Demo.warm "D" 6 = Some (Demo.loaded "D", this', msgs)
      /\ (forall k1 k2 e1 e2,
             Cache.find k1 (cache Demo.warm) = Some e1 ->
             Cache.find k2 (cache Demo.warm) = Some e2 ->
             Cache.find k1 (cache this') = None -> Cache.find k2 (cache this') = None ->
             k1 = k2).
Proof.
  assert (Hnd : NoDup (Cache.keys (cache Demo.warm)))
    by (repeat constructor; simpl; intuition discriminate).
  split; [exact Hnd|].
  do 2 eexists. split; [cbv; reflexivity|].
  apply (get_font_evicts_only_the_oldest Demo.B 3 Demo.warm _ "D" 6 _ _ Hnd eq_refl).
Defined.

(** Clearing the full cache, then asking for B again. *)
Lemma clear_forgets_witness :
  (0 < 3)%nat
  /\ cache (clear Demo.B Demo.warm) = []
  /\ exists msgs,
      get_font Demo.B 3 (clear Demo.B Demo.warm) "B" 9
      = Some (Demo.loaded "B", set_cache Demo.warm [("B", (Demo.loaded "B", 9))], msgs).
Proof.
  split; [lia|].
  destruct (clear_forgets Demo.B 3 Demo.warm "B" 9 (Nat.lt_0_succ 2)) as (_ & Hc & _ & Hget).
  split; [exact Hc|]. eexists. rewrite Hget. reflexivity.
Defined.

(** The full cache A:1, B:2, C:3 and its recency list; D arrives. *)
Lemma get_font_is_lru_step_witness :
  tracks (cache Demo.warm) [("C", 3); ("B", 2); ("A", 1)]
  /\ exists this' msgs,
      get_font Demo.B 3 Demo.warm "D" 6 = Some (Demo.loaded "D", this', msgs)
      /\ lru_touch 3 [("C", 3); ("B", 2); ("A", 1)] "D" 6 = [("D", 6); ("C", 3); ("B", 2)]
      /\ tracks (cache this') (lru_touch 3 [("C", 3); ("B", 2); ("A", 1)] "D" 6).
Proof.
  assert (Ht : tracks (cache Demo.warm) [("C", 3); ("B", 2); ("A", 1)]).
  { repeat split.
    - repeat constructor; simpl; intuition discriminate.
    - apply (Permutation_rev [("A", 1); ("B", 2); ("C", 3)]).
    - repeat constructor; simpl; lia. }
  split; [exact Ht|].
  do 2 eexists. split; [cbv; reflexivity|]. split; [reflexivity|].
  assert (Hlen : (length [("C", 3); ("B", 2); ("A", 1)] <= 3)%nat) by (simpl; lia).
  assert (Hnow : forall q, In q [("C", 3); ("B", 2); ("A", 1)] -> snd q < 6).
  { intros q Hq. simpl in Hq. destruct Hq as [<-|[<-|[<-|[]]]]; simpl; lia. }
  exact (proj1 (get_font_is_lru_step Demo.B 3 Demo.warm _ [("C", 3); ("B", 2); ("A", 1)]
                  "D" 6 _ _ Ht Hlen Hnow eq_refl)).
Defined.

(** A session on a cache of two: A, B, A again, a family that is not
    installed, then C, which evicts B. *)
Lemma cache_is_lru_witness :
  exists faces this',
    get_fonts Demo.B 2 Demo.fresh
              [("A", 1); ("B", 2); ("A", 3); ("NoSuchFont", 4); ("C", 5)]
    = Some (faces, this')
    /\ lru_run 2 [] [("A", 1); ("B", 2); ("A", 3); ("NoSuchFont", 4); ("C", 5)] faces
       = [("C", 5); ("A", 3)]
    /\ tracks (cache this')
              (lru_run 2 [] [("A", 1); ("B", 2); ("A", 3); ("NoSuchFont", 4); ("C", 5)] faces).
Proof.
  do 2 eexists. split; [cbv; reflexivity|]. split; [reflexivity|].
  apply (cache_is_lru Demo.B 2 [("A", 1); ("B", 2); ("A", 3); ("NoSuchFont", 4); ("C", 5)]
           Demo.fresh _ [] 0).
  - repeat split; constructor.
  - simpl. lia.
  - constructor.
  - intros q [].
  - simpl. lia.
  - reflexivity.
Defined.
